(** * A shallow embedding of the Thue interpreter [thue.py]

    The interpreter rewrites a working string with rules [lhs ::= rhs],
    choosing a rule and an occurrence at random, until no rule applies.
    This development embeds the engine ([applicable_rules],
    [find_occurences], [apply], [execute]) and the rulebase loader
    ([read_rulebase]) and proves the properties stated for them.

    Conventions.
    - A Python [str] is a [list ascii]; [len] is [Z.of_nat (length _)].
    - Python integers are [Z]; [str.find] answers [-1] when the substring
      is absent, exactly as in Python.
    - The process state (standard input, standard output, the random
      source) is threaded explicitly through a small state-and-error monad.
    - [while] loops take a fuel argument; running out of fuel is a result
      of its own ([OutOfFuel]), distinct from every Python exception. *)

From Stdlib Require Import List Ascii ZArith Lia Bool Arith.
From Stdlib Require String DecimalString.
Import ListNotations String.StringSyntax.

Open Scope Z_scope.

(** ** Strings *)

Definition str := list ascii.

(** String literals of the source. *)
Definition lit (s : String.string) : str := String.list_ascii_of_string s.
Arguments lit s%_string_scope.

Definition len (s : str) : Z := Z.of_nat (length s).

Definition str_eqb (a b : str) : bool :=
  if list_eq_dec ascii_dec a b then true else false.

(** [s.startswith(prefix)], the test [str.find] performs at each offset. *)
Fixpoint startswith (s prefix : str) {struct prefix} : bool :=
  match prefix, s with
  | [], _ => true
  | _ :: _, [] => false
  | c :: prefix', d :: s' => Ascii.eqb c d && startswith s' prefix'
  end.

(** [s.find(sub)]: the lowest index at which [sub] occurs in [s], or [-1]. *)
Fixpoint find (s sub : str) : Z :=
  if startswith s sub then 0
  else match s with
       | [] => -1
       | _ :: s' => let i := find s' sub in
                    if i =? -1 then -1 else i + 1
       end.

(** Python slice bounds: a negative bound counts from the end, and every
    bound is clamped to [0 .. len]. *)
Definition slice_bound (n : nat) (i : Z) : nat :=
  if i <? 0 then Z.to_nat (Z.max 0 (i + Z.of_nat n))
  else Z.to_nat (Z.min i (Z.of_nat n)).

(** [s[i:]] *)
Definition slice_from (s : str) (i : Z) : str :=
  skipn (slice_bound (length s) i) s.

(** [s[:i]] *)
Definition slice_to (s : str) (i : Z) : str :=
  firstn (slice_bound (length s) i) s.

(** ** Results of running Python code *)

Inductive exn : Type :=
| IndexError                      (* random.choice on an empty sequence *)
| EOFError                        (* input() at end of standard input *)
| SystemExit (code : Z).          (* exit(code) *)

Inductive result (A : Type) : Type :=
| Ok (a : A)
| Raise (e : exn)
| OutOfFuel.

Arguments Ok {A} a.
Arguments Raise {A} e.
Arguments OutOfFuel {A}.

(** ** Rules *)

Record Rule : Type := mkRule { lhs : str; rhs : str }.

(** [Rule.__init__]: stores both sides as given. *)
Definition Rule_init (l r : str) : Rule := {| lhs := l; rhs := r |}.

(** ** The engine: pure part *)

(** [applicable_rules(rulebase, s)] *)
Fixpoint applicable_rules (rulebase : list Rule) (s : str) : list Rule :=
  match rulebase with
  | [] => []
  | rule :: rulebase' =>
      if negb (find s (lhs rule) =? -1)
      then rule :: applicable_rules rulebase' s
      else applicable_rules rulebase' s
  end.

(** The [while] loop of [find_occurences]; the loop variables are [s],
    [offset] and [occurences]. *)
Fixpoint find_occurences_loop (fuel : nat) (s substr : str) (offset : Z)
    (occurences : list Z) : result (list Z) :=
  match fuel with
  | O => OutOfFuel
  | S fuel' =>
      let i := find s substr in
      if negb (i =? -1) then
        find_occurences_loop fuel'
          (slice_from s (i + len substr)) substr
          (offset + (i + len substr))
          (occurences ++ [i + offset])
      else Ok occurences
  end.

(** [find_occurences(s, substr)] *)
Definition find_occurences (fuel : nat) (s substr : str) : result (list Z) :=
  find_occurences_loop fuel s substr 0 [].

(** ** The process state and the monad of effects *)

(** [rand] is the sequence of draws of the random generator and [rand_pos]
    the number of draws made so far; the universal quantification over
    [rand] in the theorems ranges over every run of the interpreter. *)
Record World : Type := mkWorld {
  stdin : str;
  stdout : str;
  stderr : str;
  rand : nat -> nat;
  rand_pos : nat
}.

Definition M (A : Type) : Type := World -> result A * World.

Definition ret {A : Type} (a : A) : M A := fun w => (Ok a, w).

Definition bind {A B : Type} (c : M A) (k : A -> M B) : M B :=
  fun w =>
    match c w with
    | (Ok a, w') => k a w'
    | (Raise e, w') => (Raise e, w')
    | (OutOfFuel, w') => (OutOfFuel, w')
    end.

Definition raise {A : Type} (e : exn) : M A := fun w => (Raise e, w).

Definition out_of_fuel {A : Type} : M A := fun w => (OutOfFuel, w).

(** A pure computation that may fail, run in the current state. *)
Definition lift {A : Type} (r : result A) : M A := fun w => (r, w).

Declare Scope monad_scope.
Delimit Scope monad_scope with monad.
Notation "x <- c ;; k" := (bind c (fun x => k))
  (at level 61, c at next level, right associativity) : monad_scope.
Notation "c ;;; k" := (bind c (fun _ => k))
  (at level 61, right associativity) : monad_scope.
Open Scope monad_scope.

Definition newline : ascii := ascii_of_nat 10.
Definition dquote : ascii := ascii_of_nat 34.

(** Writing [text] to standard output, and to the error stream. *)
Definition write_stdout (text : str) : M unit := fun w =>
  (Ok tt, {| stdin := stdin w; stdout := stdout w ++ text; stderr := stderr w;
             rand := rand w; rand_pos := rand_pos w |}).

Definition write_stderr (text : str) : M unit := fun w =>
  (Ok tt, {| stdin := stdin w; stdout := stdout w; stderr := stderr w ++ text;
             rand := rand w; rand_pos := rand_pos w |}).

(** The first line of a stream, without its newline, and what follows it. *)
Fixpoint split_line (s : str) : str * str :=
  match s with
  | [] => ([], [])
  | c :: s' =>
      if Ascii.eqb c newline then ([], s')
      else let (line, rest) := split_line s' in (c :: line, rest)
  end.

(** [input()]: one line of standard input with the trailing newline
    stripped; [EOFError] when standard input holds nothing more. *)
Definition input : M str := fun w =>
  match stdin w with
  | [] => (Raise EOFError, w)
  | _ :: _ =>
      let (line, rest) := split_line (stdin w) in
      (Ok line, {| stdin := rest; stdout := stdout w; stderr := stderr w;
                   rand := rand w; rand_pos := rand_pos w |})
  end.

(** [random.choice(seq)]: [seq[randbelow(len(seq))]], and [IndexError] on
    an empty sequence.  A draw [r] of the generator selects index
    [r mod len(seq)], so every index can be selected. *)
Definition random_choice {A : Type} (seq : list A) : M A := fun w =>
  match nth_error seq (rand w (rand_pos w) mod length seq)%nat with
  | None => (Raise IndexError, w)
  | Some a =>
      (Ok a, {| stdin := stdin w; stdout := stdout w; stderr := stderr w;
                rand := rand w; rand_pos := S (rand_pos w) |})
  end.

(** [time.sleep]: a delay changes nothing of the state modelled here. *)
Definition time_sleep : M unit := ret tt.

(** ** The engine: effectful part *)

(** [rule.rhs != '' and rule.rhs[0] == '~'] *)
Definition is_output (r : str) : bool :=
  match r with
  | [] => false
  | c :: _ => Ascii.eqb c "~"%char
  end.

(** [apply(rule, string)] *)
Definition apply (fuel : nat) (rule : Rule) (string : str) : M str :=
  occurences <- lift (find_occurences fuel string (lhs rule)) ;;
  i <- random_choice occurences ;;
  let left := slice_to string i in
  let right := slice_from string (i + len (lhs rule)) in
  if str_eqb (rhs rule) (lit ":::") then
    in_between <- input ;;
    ret (left ++ in_between ++ right)
  else if is_output (rhs rule) then
    let in_between := lit "" in
    write_stdout (slice_from (rhs rule) 1) ;;;
    ret (left ++ in_between ++ right)
  else
    let in_between := rhs rule in
    ret (left ++ in_between ++ right).

(** The [while] loop of [execute]; its value is the final [string]. *)
Fixpoint execute_loop (fuel : nat) (rulebase : list Rule) (string : str)
    (is_verbose : bool) : M str :=
  match fuel with
  | O => out_of_fuel
  | S fuel' =>
      match applicable_rules rulebase string with
      | [] => ret string
      | rules =>
          (if is_verbose then
             time_sleep ;;;
             write_stdout (lit "string:" ++ lit " " ++ string ++ [newline])
           else ret tt) ;;;
          r <- random_choice rules ;;
          string' <- apply fuel' r string ;;
          execute_loop fuel' rulebase string' is_verbose
      end
  end.

(** [execute(rulebase, string, is_verbose)]: the loop, then
    [print(string)]. *)
Definition execute (fuel : nat) (rulebase : list Rule) (string : str)
    (is_verbose : bool) : M unit :=
  final <- execute_loop fuel rulebase string is_verbose ;;
  write_stdout (final ++ [newline]).

(** ** The loader *)

(** Decimal rendering of an integer, as an f-string does. *)
Definition str_of_int (n : Z) : str :=
  lit (DecimalString.NilZero.string_of_int (Z.to_int n)).

(** [error(msg, lineno)]: a message on the error stream, then [exit(1)].
    The caller passes [-1] where the source relies on the default. *)
Definition error {A : Type} (msg : str) (lineno : Z) : M A :=
  (if negb (lineno =? -1) then
     write_stderr (lit "error, line " ++ str_of_int lineno ++ lit ": " ++ msg
                   ++ lit "!" ++ [newline])
   else
     write_stderr (lit "error: " ++ msg ++ lit "!" ++ [newline])) ;;;
  raise (SystemExit 1).

(** [c.isspace()] on the characters below 256. *)
Definition isspace_char (c : ascii) : bool :=
  let n := nat_of_ascii c in
  ((9 <=? n) && (n <=? 13) || (28 <=? n) && (n <=? 32)
   || (n =? 133) || (n =? 160))%nat.

(** [s.isspace()]: at least one character, and all of them whitespace. *)
Definition isspace (s : str) : bool :=
  match s with
  | [] => false
  | _ :: _ => forallb isspace_char s
  end.

(** [s.rstrip()] *)
Fixpoint rstrip (s : str) : str :=
  match s with
  | [] => []
  | c :: s' =>
      match rstrip s' with
      | [] => if isspace_char c then [] else [c]
      | r => c :: r
      end
  end.

(** The longest prefix free of newlines: the most that a greedy run of
    dots can match. *)
Fixpoint dot_star (s : str) : str :=
  match s with
  | [] => []
  | c :: s' => if Ascii.eqb c newline then [] else c :: dot_star s'
  end.

(** Splitting at the last occurrence of [sep]. *)
Fixpoint split_last (s sep : str) : option (str * str) :=
  match s with
  | [] => if startswith [] sep then Some ([], []) else None
  | c :: s' =>
      match split_last s' sep with
      | Some (l, r) => Some (c :: l, r)
      | None =>
          if startswith s sep then Some ([], skipn (length sep) s) else None
      end
  end.

(** [re.match] with the rule pattern of the source, and [m.groups()]: two
    greedy groups of non-newline characters around the separator, so the
    line is cut at the last separator that precedes any newline. *)
Definition re_match_rule (line : str) : option (str * str) :=
  split_last (dot_star line) (lit "::=").

(** The [for] loop of [read_rulebase] over the lines the file still holds,
    followed by the [error] call that ends the function.  On [return] the
    lines not yet read stay in the file; they are returned with the
    rulebase. *)
Fixpoint read_rulebase_loop (file : list str) (rulebase : list Rule)
    (lineno : Z) : M (list Rule * list str) :=
  match file with
  | [] =>
      error (lit "Expected " ++ [dquote] ++ lit "::=" ++ [dquote] ++ lit ", got "
             ++ [dquote] ++ lit "EOF" ++ [dquote]) lineno
  | line :: file' =>
      let line := rstrip line in
      if str_eqb line (lit "") || isspace line then
        read_rulebase_loop file' rulebase (lineno + 1)
      else
        match re_match_rule line with
        | Some (l, r) =>
            if str_eqb l (lit "") then ret (rulebase, file')
            else read_rulebase_loop file' (rulebase ++ [Rule_init l r])
                   (lineno + 1)
        | None =>
            error (lit "Expected " ++ [dquote] ++ lit "<lhs> ::= <rhs>"
                   ++ [dquote] ++ lit ", got " ++ line) lineno
        end
  end.

(** [read_rulebase(file)] *)
Definition read_rulebase (file : list str) : M (list Rule * list str) :=
  read_rulebase_loop file [] 1.

(** [read_program(filename)]; [files] stands for the file system: the lines
    of each file that can be opened. *)
Definition read_program (files : str -> option (list str)) (filename : str)
    : M (list Rule * str) :=
  file <- match files filename with
          | Some file => ret file
          | None => error (lit "could not open " ++ [dquote] ++ filename
                           ++ [dquote]) (-1)
          end ;;
  p <- read_rulebase file ;;
  let (rulebase, file') := p in
  let init_str := fold_left (fun acc line => acc ++ rstrip line) file' (lit "") in
  ret (rulebase, init_str).

(** ** The main program *)

(** [print_help()]: the usage line on standard output, then [exit()],
    which ends the process with status 0. *)
Definition print_help {A : Type} : M A :=
  write_stdout (lit "usage: python3 thue.py [-v] <path-to-file>" ++ [newline]) ;;;
  raise (SystemExit 0).

(** The main program, run on the argument vector [argv] (the script name
    first). *)
Definition main (fuel : nat) (files : str -> option (list str))
    (argv : list str) : M unit :=
  args <- match argv with
          | [_; a1] => ret (a1, false)
          | [_; a1; a2] =>
              (if negb (str_eqb a1 (lit "-v") || str_eqb a1 (lit "-verbose"))
               then print_help else ret tt) ;;;
              ret (a2, true)
          | _ => print_help
          end ;;
  let (filename, is_verbose) := args in
  p <- read_program files filename ;;
  let (rulebase, init_str) := p in
  execute fuel rulebase init_str is_verbose.

(** ** Vocabulary of the statements *)

(** [p] occurs in [s] as a literal substring. *)
Definition occurs (p s : str) : Prop := exists l r, s = l ++ p ++ r.

(** [p] occurs in [s] at offset [o]: [s[o, o+len(p))] equals [p]. *)
Definition occurs_at (p s : str) (o : nat) : Prop :=
  firstn (length p) (skipn o s) = p.

(** Offsets that start at [lo] or later and leave [gap] characters between
    one offset and the next. *)
Fixpoint well_spaced (gap lo : Z) (occ : list Z) : Prop :=
  match occ with
  | [] => True
  | o :: occ' => lo <= o /\ well_spaced gap (o + gap) occ'
  end.

(** The state after one draw of the random generator. *)
Definition drawn (w : World) : World :=
  {| stdin := stdin w; stdout := stdout w; stderr := stderr w;
     rand := rand w; rand_pos := S (rand_pos w) |}.

(** The state after [text] went to standard output. *)
Definition printed (text : str) (w : World) : World :=
  {| stdin := stdin w; stdout := stdout w ++ text; stderr := stderr w;
     rand := rand w; rand_pos := rand_pos w |}.

(** The state with [rest] left on standard input. *)
Definition consumed (rest : str) (w : World) : World :=
  {| stdin := rest; stdout := stdout w; stderr := stderr w;
     rand := rand w; rand_pos := rand_pos w |}.

(** A result that is an error or a failure to finish. *)
Definition fails {A : Type} (r : result A) : Prop :=
  match r with
  | Ok _ => False
  | _ => True
  end.

(** The text a rule puts in place of an occurrence: a line of input for an
    input rule, nothing for an output rule, its right-hand side otherwise. *)
Definition replacement (rule : Rule) (mid : str) : Prop :=
  if str_eqb (rhs rule) (lit ":::") then ~ In newline mid
  else if is_output (rhs rule) then mid = []
  else mid = rhs rule.

(** One rewriting step of the rulebase [R]. *)
Inductive rewrite_step (R : list Rule) : str -> str -> Prop :=
| rewrite_at (rule : Rule) (l r mid : str) :
    In rule R -> replacement rule mid ->
    rewrite_step R (l ++ lhs rule ++ r) (l ++ mid ++ r).

(** Zero or more rewriting steps. *)
Inductive rewrites (R : list Rule) : str -> str -> Prop :=
| rewrites_refl (s : str) : rewrites R s s
| rewrites_step (s s1 s2 : str) :
    rewrite_step R s s1 -> rewrites R s1 s2 -> rewrites R s s2.

(** How a run may change the state: standard output grows at its end,
    standard input shrinks from its front, the error stream and the random
    source stay, the number of draws does not decrease. *)
Definition evolves (w w' : World) : Prop :=
  (exists out, stdout w' = stdout w ++ out) /\
  (exists used, stdin w = used ++ stdin w') /\
  stderr w' = stderr w /\
  rand w' = rand w /\
  (rand_pos w <= rand_pos w')%nat.

(** Two states that a run cannot tell apart except by what was written. *)
Definition same_inputs (w1 w2 : World) : Prop :=
  stdin w1 = stdin w2 /\ rand w1 = rand w2 /\ rand_pos w1 = rand_pos w2.


(** A rule that makes the string shorter and reads nothing. *)
Definition shortens (rule : Rule) : Prop :=
  lhs rule <> [] /\ rhs rule <> lit ":::" /\
  (is_output (rhs rule) = false -> (length (rhs rule) < length (lhs rule))%nat).

(** The line of a program file that holds a rule. *)
Definition rule_line (rule : Rule) : str :=
  lhs rule ++ lit "::=" ++ rhs rule ++ [newline].

(** A rule that its line in a program file represents faithfully. *)
Definition writable (rule : Rule) : Prop :=
  lhs rule <> [] /\ ~ In newline (lhs rule) /\ ~ In newline (rhs rule) /\
  ~ occurs (lit "::=") (rhs rule) /\ rstrip (rhs rule) = rhs rule.

(** A line that [read_rulebase] passes over or takes for a rule. *)
Definition passable (line : str) : Prop :=
  str_eqb (rstrip line) (lit "") || isspace (rstrip line) = true \/
  exists l r, re_match_rule (rstrip line) = Some (l, r) /\ l <> [].

(** * Properties *)

(** ** Substring search *)

Lemma startswith_spec (s p : str) :
  startswith s p = true <-> exists r, s = p ++ r.
Proof.
  revert s; induction p as [|c p IH]; intros s; simpl.
  - split; [intros _; now exists s | reflexivity].
  - destruct s as [|d s].
    + split; [discriminate | intros [r Hr]; discriminate].
    + rewrite andb_true_iff, Ascii.eqb_eq, IH. split.
      * intros [-> [r ->]]. now exists r.
      * intros [r Hr]. injection Hr as -> ->. split; [reflexivity | now exists r].
Qed.

Lemma startswith_nil (p : str) : startswith [] p = true -> p = [].
Proof. destruct p; [reflexivity | discriminate]. Qed.

(** What [find] answers: either [-1] and no occurrence at all, or the
    length of the text in front of the first occurrence. *)
Lemma find_cases (s p : str) :
  (find s p = -1 /\ ~ occurs p s) \/
  (exists l r, s = l ++ p ++ r /\ find s p = len l).
Proof.
  induction s as [|c s IH]; simpl.
  - destruct (startswith [] p) eqn:E.
    + right. apply startswith_nil in E. subst p. now exists [], [].
    + left. split; [reflexivity|]. intros (l & r & H).
      destruct l; [destruct p; [discriminate E | discriminate H] | discriminate H].
  - destruct (startswith (c :: s) p) eqn:E.
    + right. apply startswith_spec in E. destruct E as [r Hr].
      exists [], r. now split.
    + destruct IH as [[Hf Hn] | (l & r & Hs & Hf)].
      * left. rewrite Hf. split; [reflexivity|]. intros (l & r & H).
        destruct l as [|d l].
        -- simpl in H. assert (startswith (c :: s) p = true)
             by (apply startswith_spec; now exists r). congruence.
        -- injection H as _ H. apply Hn. now exists l, r.
      * right. exists (c :: l), r. split; [now rewrite Hs|].
        rewrite Hf. unfold len. simpl length.
        destruct (Z.of_nat (length l) =? -1) eqn:E1; lia.
Qed.

Lemma find_occurs (s p : str) : find s p <> -1 <-> occurs p s.
Proof.
  destruct (find_cases s p) as [[Hf Hn] | (l & r & Hs & Hf)].
  - split; [congruence | tauto].
  - split; [intros _; now exists l, r | intros _; unfold len in Hf; lia].
Qed.

Lemma occurs_dec (p s : str) : {occurs p s} + {~ occurs p s}.
Proof.
  destruct (Z.eq_dec (find s p) (-1)) as [E | E].
  - right. intros H. apply find_occurs in H. contradiction.
  - left. now apply find_occurs.
Defined.

(** ** Slices with bounds inside the string *)

Lemma skipn_length_app {A : Type} (l r : list A) :
  skipn (length l) (l ++ r) = r.
Proof. induction l as [|a l IH]; [reflexivity | exact IH]. Qed.

Lemma firstn_length_app {A : Type} (l r : list A) :
  firstn (length l) (l ++ r) = l.
Proof. induction l as [|a l IH]; simpl; [reflexivity | now rewrite IH]. Qed.

Lemma slice_to_nat (s : str) (n : nat) :
  (n <= length s)%nat -> slice_to s (Z.of_nat n) = firstn n s.
Proof.
  intros H. unfold slice_to, slice_bound.
  destruct (Z.of_nat n <? 0) eqn:E; [lia|].
  f_equal. lia.
Qed.

Lemma slice_from_nat (s : str) (n : nat) :
  (n <= length s)%nat -> slice_from s (Z.of_nat n) = skipn n s.
Proof.
  intros H. unfold slice_from, slice_bound.
  destruct (Z.of_nat n <? 0) eqn:E; [lia|].
  f_equal. lia.
Qed.

Lemma slice_from_split (l p r : str) :
  slice_from (l ++ p ++ r) (len l + len p) = r.
Proof.
  unfold len. rewrite <- Nat2Z.inj_add, slice_from_nat.
  - rewrite app_assoc, <- length_app. apply skipn_length_app.
  - rewrite !length_app. lia.
Qed.

(** ** The scan of [find_occurences] *)

Lemma len_not_minus_one (l : str) : (len l =? -1) = false.
Proof. apply Z.eqb_neq. unfold len. lia. Qed.

Lemma len_nonempty (p : str) : p <> [] -> 1 <= len p.
Proof. destruct p; [congruence | unfold len; simpl length; lia]. Qed.

Lemma occurs_at_split (l p r : str) : occurs_at p (l ++ p ++ r) (length l).
Proof.
  unfold occurs_at. now rewrite skipn_length_app, firstn_length_app.
Qed.

Lemma occurs_at_shift (l p s : str) (o : nat) :
  occurs_at p s o -> occurs_at p (l ++ s) (length l + o).
Proof.
  unfold occurs_at. intros H.
  now rewrite Nat.add_comm, <- skipn_skipn, skipn_length_app.
Qed.

Lemma occurs_at_bound (p s : str) (o : nat) :
  occurs_at p s o -> p <> [] -> (o + length p <= length s)%nat.
Proof.
  unfold occurs_at. intros H Hp.
  assert (Hl : length (firstn (length p) (skipn o s)) = length p) by now rewrite H.
  rewrite length_firstn, length_skipn in Hl.
  destruct p; [congruence | simpl length in *; lia].
Qed.

(** The loop invariant: with a non-empty pattern the loop ends within
    [length s] iterations, appends to the accumulator offsets that are
    real occurrences (counted from [off]) and keeps them apart. *)
Lemma find_occurences_loop_spec (p : str) (Hp : p <> []) :
  forall (n : nat) (s : str) (off : Z) (acc : list Z),
    (length s <= n)%nat ->
    exists t,
      (forall fuel, (n < fuel)%nat ->
         find_occurences_loop fuel s p off acc = Ok (acc ++ t)) /\
      Forall (fun o => off <= o /\ occurs_at p s (Z.to_nat (o - off))) t /\
      well_spaced (len p) off t.
Proof.
  pose proof (len_nonempty p Hp) as Hp1.
  induction n as [|n IH]; intros s off acc Hn;
    destruct (find_cases s p) as [[Hf Hno] | (l & r & Hs & Hf)].
  1, 3: exists []; split; [|split; [constructor | exact I]];
        intros [|fuel] Hfuel; [lia|]; simpl; rewrite Hf; simpl;
        now rewrite app_nil_r.
  - subst s. rewrite !length_app in Hn. unfold len in Hp1. lia.
  - assert (Hr : (length r <= n)%nat).
    { subst s. rewrite !length_app in Hn. unfold len in Hp1. lia. }
    destruct (IH r (off + (len l + len p)) (acc ++ [len l + off]) Hr)
      as (t & Hrun & Hocc & Hsp).
    exists ((len l + off) :: t). split; [|split].
    + intros [|fuel] Hfuel; [lia|]. simpl. rewrite Hf.
      rewrite len_not_minus_one. cbn [negb].
      rewrite Hs at 1. rewrite slice_from_split.
      rewrite Hrun by lia. now rewrite <- app_assoc.
    + constructor.
      * split; [unfold len; lia|].
        replace (Z.to_nat (len l + off - off)) with (length l) by (unfold len; lia).
        subst s. apply occurs_at_split.
      * eapply Forall_impl; [|exact Hocc]. intros o [Ho Hat].
        split; [unfold len in *; lia|].
        replace (Z.to_nat (o - off))
          with (length (l ++ p) + Z.to_nat (o - (off + (len l + len p))))%nat
          by (rewrite length_app; unfold len in *; lia).
        subst s. rewrite app_assoc. now apply occurs_at_shift.
    + simpl. split; [unfold len; lia|].
      replace (len l + off + len p) with (off + (len l + len p)) by lia.
      exact Hsp.
Qed.

(** With an empty pattern the loop uses up any amount of fuel. *)
Lemma find_occurences_loop_empty (fuel : nat) :
  forall (s : str) (off : Z) (acc : list Z),
    find_occurences_loop fuel s [] off acc = OutOfFuel.
Proof.
  induction fuel as [|fuel IH]; intros s off acc; [reflexivity|].
  simpl. destruct s; simpl; apply IH.
Qed.

(** Whatever the pattern, the loop only ever extends its accumulator. *)
Lemma find_occurences_loop_extends (p : str) (fuel : nat) :
  forall (s : str) (off : Z) (acc occ : list Z),
    find_occurences_loop fuel s p off acc = Ok occ -> exists t, occ = acc ++ t.
Proof.
  induction fuel as [|fuel IH]; intros s off acc occ H; [discriminate|].
  simpl in H. destruct (negb (find s p =? -1)).
  - apply IH in H. destruct H as [t ->]. exists ((find s p + off) :: t).
    now rewrite <- app_assoc.
  - injection H as <-. exists []. now rewrite app_nil_r.
Qed.

Lemma find_occurences_nonempty (p s : str) (fuel : nat) (occ : list Z) :
  find_occurences fuel s p = Ok occ -> (occ <> [] <-> find s p <> -1).
Proof.
  unfold find_occurences. destruct fuel as [|fuel]; [discriminate|].
  simpl. destruct (find s p =? -1) eqn:E; simpl; intros H.
  - injection H as <-. apply Z.eqb_eq in E. tauto.
  - apply Z.eqb_neq in E. apply find_occurences_loop_extends in H.
    destruct H as [t ->]. split; [tauto | discriminate].
Qed.

Lemma find_occurences_spec (p s : str) :
  p <> [] ->
  exists occ,
    (forall fuel, (length s < fuel)%nat -> find_occurences fuel s p = Ok occ) /\
    Forall (fun o => 0 <= o /\ occurs_at p s (Z.to_nat o)) occ /\
    well_spaced (len p) 0 occ.
Proof.
  intros Hp.
  destruct (find_occurences_loop_spec p Hp (length s) s 0 [] (le_n _))
    as (t & Hrun & Hocc & Hsp).
  exists t. split; [exact Hrun | split; [|exact Hsp]].
  eapply Forall_impl; [|exact Hocc]. intros o [Ho Hat].
  now rewrite Z.sub_0_r in Hat.
Qed.

(** Spaced offsets, read index by index. *)
Lemma well_spaced_lower (gap lo : Z) (occ : list Z) :
  0 <= gap -> well_spaced gap lo occ -> Forall (fun o => lo <= o) occ.
Proof.
  intros Hg. revert lo. induction occ as [|o occ IH]; intros lo H; [constructor|].
  destruct H as [Hlo H]. constructor; [exact Hlo|].
  eapply Forall_impl; [|exact (IH _ H)]. simpl. intros; lia.
Qed.

Lemma well_spaced_next (gap lo : Z) (occ : list Z) (i : nat) (a b : Z) :
  well_spaced gap lo occ ->
  nth_error occ i = Some a -> nth_error occ (S i) = Some b -> a + gap <= b.
Proof.
  revert lo i. induction occ as [|o occ IH]; intros lo i H Ha Hb.
  - destruct i; discriminate.
  - destruct H as [Hlo H]. destruct i as [|i].
    + injection Ha as ->. destruct occ as [|o' occ]; [discriminate|].
      injection Hb as ->. now destruct H.
    + exact (IH _ _ H Ha Hb).
Qed.

Lemma well_spaced_increasing (gap lo : Z) (occ : list Z) (i j : nat) (a b : Z) :
  1 <= gap -> well_spaced gap lo occ -> (i < j)%nat ->
  nth_error occ i = Some a -> nth_error occ j = Some b -> a < b.
Proof.
  intros Hg. revert lo i j. induction occ as [|o occ IH]; intros lo i j H Hij Ha Hb.
  - destruct i; discriminate.
  - destruct H as [Hlo H]. destruct j as [|j]; [lia|]. destruct i as [|i].
    + injection Ha as ->. simpl in Hb. apply nth_error_In in Hb.
      pose proof (well_spaced_lower gap _ occ ltac:(lia) H) as Hall.
      rewrite Forall_forall in Hall. specialize (Hall _ Hb). lia.
    + simpl in Ha, Hb. apply (IH _ i j H); [lia | assumption | assumption].
Qed.

(** Overlapping occurrences are skipped: the scan resumes after the end of
    each occurrence it finds. *)
Example find_occurences_aaa :
  find_occurences 4 (lit "aaa") (lit "aa") = Ok [0] /\
  find_occurences 7 (lit "banana") (lit "a") = Ok [1; 3; 5] /\
  find_occurences 7 (lit "banana") (lit "x") = Ok [].
Proof. repeat split; reflexivity. Qed.

(** ** Applicable rules *)

Lemma applicable_rules_filter (R : list Rule) (s : str) :
  applicable_rules R s =
  filter (fun r => if occurs_dec (lhs r) s then true else false) R.
Proof.
  induction R as [|r R IH]; [reflexivity|]. simpl. rewrite IH.
  destruct (occurs_dec (lhs r) s) as [Hy | Hn].
  - apply find_occurs in Hy. apply Z.eqb_neq in Hy. now rewrite Hy.
  - destruct (find s (lhs r) =? -1) eqn:E; [reflexivity|].
    apply Z.eqb_neq in E. apply find_occurs in E. contradiction.
Qed.

Lemma applicable_rules_In (R : list Rule) (s : str) (r : Rule) :
  In r (applicable_rules R s) <-> In r R /\ occurs (lhs r) s.
Proof.
  rewrite applicable_rules_filter, filter_In.
  destruct (occurs_dec (lhs r) s); intuition discriminate.
Qed.

(** C1. [applicable_rules] keeps, in rulebase order, exactly the rules whose
    pattern occurs in [s] as a literal substring: it is the rulebase
    filtered by that predicate.  Its result is empty if and only if no
    rule's pattern occurs in [s].  It is a function of the rulebase and the
    string alone: the state of the process, and with it the random
    generator, is no argument of it. *)
Theorem applicable_rules_correct (R : list Rule) (s : str) :
  applicable_rules R s =
    filter (fun r => if occurs_dec (lhs r) s then true else false) R /\
  (forall r, In r (applicable_rules R s) <-> In r R /\ occurs (lhs r) s) /\
  (applicable_rules R s = [] <-> forall r, In r R -> ~ occurs (lhs r) s).
Proof.
  split; [apply applicable_rules_filter|].
  split; [intros r; apply applicable_rules_In|].
  split.
  - intros H r Hr Hocc.
    assert (Hin : In r (applicable_rules R s)) by (apply applicable_rules_In; tauto).
    rewrite H in Hin. exact Hin.
  - intros H. destruct (applicable_rules R s) as [|r l] eqn:E; [reflexivity|].
    assert (Hin : In r (applicable_rules R s)) by (rewrite E; now left).
    apply applicable_rules_In in Hin. destruct Hin as [Hin Hocc].
    now destruct (H r Hin).
Qed.

(** ** Occurrence enumeration *)

(** C2. For a non-empty pattern [p], [find_occurences] returns (with any
    fuel above the length of [s]) a list of offsets that is strictly
    increasing, whose every offset [o] starts an occurrence of [p] in [s]
    (the [len p] characters of [s] from [o] are [p]), and in which each
    offset is at least [len p] beyond the one before it.  On ["aaaa"] and
    ["aa"] the list is [[0; 2]]. *)
Theorem find_occurences_correct :
  (forall s p : str,
     p <> [] ->
     exists occ,
       (forall fuel, (length s < fuel)%nat ->
          find_occurences fuel s p = Ok occ) /\
       (forall i j a b, (i < j)%nat ->
          nth_error occ i = Some a -> nth_error occ j = Some b -> a < b) /\
       (forall o, In o occ ->
          0 <= o /\ o + len p <= len s /\
          firstn (length p) (skipn (Z.to_nat o) s) = p) /\
       (forall i a b,
          nth_error occ i = Some a -> nth_error occ (S i) = Some b ->
          a + len p <= b)) /\
  (forall fuel, (4 < fuel)%nat ->
     find_occurences fuel (lit "aaaa") (lit "aa") = Ok [0; 2]).
Proof.
  split.
  - intros s p Hp. destruct (find_occurences_spec p s Hp) as (occ & Hrun & Hocc & Hsp).
    pose proof (len_nonempty p Hp) as Hp1.
    exists occ. split; [exact Hrun|]. split; [|split].
    + intros i j a b. now apply (well_spaced_increasing (len p) 0).
    + intros o Ho. rewrite Forall_forall in Hocc. destruct (Hocc o Ho) as [H0 Hat].
      split; [exact H0|]. split; [|exact Hat].
      pose proof (occurs_at_bound _ _ _ Hat Hp). unfold len. lia.
    + intros i a b. now apply (well_spaced_next (len p) 0).
  - intros fuel Hfuel. do 5 (destruct fuel as [|fuel]; [lia|]). reflexivity.
Qed.

Lemma find_occurences_correct_witness :
  exists occ,
    (forall fuel, (length (lit "abcab") < fuel)%nat ->
       find_occurences fuel (lit "abcab") (lit "ab") = Ok occ) /\
    (forall i j a b, (i < j)%nat ->
       nth_error occ i = Some a -> nth_error occ j = Some b -> a < b) /\
    (forall o, In o occ ->
       0 <= o /\ o + len (lit "ab") <= len (lit "abcab") /\
       firstn (length (lit "ab")) (skipn (Z.to_nat o) (lit "abcab")) = lit "ab") /\
    (forall i a b,
       nth_error occ i = Some a -> nth_error occ (S i) = Some b ->
       a + len (lit "ab") <= b).
Proof.
  apply (proj1 find_occurences_correct (lit "abcab") (lit "ab")). discriminate.
Defined.

(** C10. With a non-empty pattern [find_occurences] terminates: any fuel
    above the length of [s] yields a result, because an iteration that
    finds the pattern leaves a remaining string shorter by at least
    [len p >= 1].  With the empty pattern it does not terminate: [find]
    answers [0], the remaining string is [s] again, and no amount of fuel
    yields a result. *)
Theorem find_occurences_terminates (s p : str) :
  (p <> [] ->
     (exists occ, forall fuel, (length s < fuel)%nat ->
        find_occurences fuel s p = Ok occ) /\
     1 <= len p /\
     (find s p <> -1 ->
        len (slice_from s (find s p + len p)) + len p <= len s)) /\
  (p = [] ->
     find s p = 0 /\
     slice_from s (find s p + len p) = s /\
     forall fuel, find_occurences fuel s p = OutOfFuel).
Proof.
  split.
  - intros Hp. split; [|split].
    + destruct (find_occurences_spec p s Hp) as (occ & Hrun & _).
      now exists occ.
    + now apply len_nonempty.
    + intros Hf.
      destruct (find_cases s p) as [[E _] | (l & r & Hs & E)]; [contradiction|].
      rewrite E. rewrite Hs at 1. rewrite slice_from_split.
      subst s. unfold len. rewrite !length_app. lia.
  - intros ->. assert (Hf : find s [] = 0) by (destruct s; reflexivity).
    split; [exact Hf|]. split.
    + rewrite Hf. change (0 + len []) with (Z.of_nat 0).
      rewrite slice_from_nat by lia. reflexivity.
    + intros fuel. apply find_occurences_loop_empty.
Qed.

Lemma find_occurences_terminates_witness :
  ((exists occ, forall fuel, (length (lit "aaa") < fuel)%nat ->
      find_occurences fuel (lit "aaa") (lit "aa") = Ok occ) /\
   1 <= len (lit "aa") /\
   (find (lit "aaa") (lit "aa") <> -1 ->
      len (slice_from (lit "aaa") (find (lit "aaa") (lit "aa") + len (lit "aa")))
      + len (lit "aa") <= len (lit "aaa"))) /\
  (find (lit "aaa") [] = 0 /\
   slice_from (lit "aaa") (find (lit "aaa") [] + len []) = lit "aaa" /\
   forall fuel, find_occurences fuel (lit "aaa") [] = OutOfFuel).
Proof.
  split.
  - apply (proj1 (find_occurences_terminates (lit "aaa") (lit "aa"))). discriminate.
  - apply (proj2 (find_occurences_terminates (lit "aaa") [])). reflexivity.
Defined.

(** ** One application of a rule *)

Lemma find_occurences_loop_more_fuel (p : str) (fuel k : nat) :
  forall (s : str) (off : Z) (acc occ : list Z),
    find_occurences_loop fuel s p off acc = Ok occ ->
    find_occurences_loop (fuel + k) s p off acc = Ok occ.
Proof.
  induction fuel as [|fuel IH]; intros s off acc occ H; [discriminate|].
  simpl in *. destruct (negb (find s p =? -1)); [now apply IH | exact H].
Qed.

(** Whatever the fuel, a list that [find_occurences] returns is the list of
    [find_occurences_spec]. *)
Lemma find_occurences_sound (fuel : nat) (s p : str) (occ : list Z) :
  find_occurences fuel s p = Ok occ ->
  p <> [] /\
  Forall (fun o => 0 <= o /\ occurs_at p s (Z.to_nat o)) occ /\
  well_spaced (len p) 0 occ.
Proof.
  intros H.
  assert (Hp : p <> []).
  { intros ->. unfold find_occurences in H.
    rewrite find_occurences_loop_empty in H. discriminate. }
  split; [exact Hp|].
  destruct (find_occurences_spec p s Hp) as (occ' & Hrun & Hocc & Hsp).
  apply (find_occurences_loop_more_fuel p fuel (S (length s))) in H.
  unfold find_occurences in Hrun. rewrite Hrun in H by lia.
  injection H as <-. now split.
Qed.

Lemma random_choice_inv {A : Type} (seq : list A) (w w' : World) (a : A) :
  random_choice seq w = (Ok a, w') -> In a seq /\ w' = drawn w.
Proof.
  unfold random_choice.
  destruct (nth_error seq (rand w (rand_pos w) mod length seq)) as [x|] eqn:E;
    [|discriminate].
  intros H. injection H as <- <-. split; [|reflexivity].
  eapply nth_error_In; eassumption.
Qed.

Lemma random_choice_nonempty {A : Type} (seq : list A) (w : World) :
  seq <> [] -> exists a, random_choice seq w = (Ok a, drawn w) /\ In a seq.
Proof.
  intros Hne. unfold random_choice.
  destruct (nth_error seq (rand w (rand_pos w) mod length seq)) as [x|] eqn:E.
  - exists x. split; [reflexivity | eapply nth_error_In; eassumption].
  - apply nth_error_None in E.
    assert (length seq <> 0)%nat by (destruct seq; [congruence | discriminate]).
    pose proof (Nat.mod_upper_bound (rand w (rand_pos w)) (length seq)). lia.
Qed.

(** Every element of the sequence is selected by some draw. *)
Lemma random_choice_reaches {A : Type} (seq : list A) (a : A) :
  In a seq ->
  exists k, forall w, rand w (rand_pos w) = k ->
    random_choice seq w = (Ok a, drawn w).
Proof.
  intros Hin. apply In_nth_error in Hin. destruct Hin as [k Hk].
  exists k. intros w Hw. unfold random_choice. rewrite Hw.
  assert (k < length seq)%nat by (apply nth_error_Some; congruence).
  rewrite Nat.mod_small by assumption. now rewrite Hk.
Qed.

(** A chosen occurrence lies inside the string, and the two slices of
    [apply] are the text before it and the text after it. *)
Lemma chosen_occurrence (fuel : nat) (s p : str) (occ : list Z) (o : Z) :
  find_occurences fuel s p = Ok occ -> In o occ ->
  0 <= o /\ occurs_at p s (Z.to_nat o) /\
  slice_to s o = firstn (Z.to_nat o) s /\
  slice_from s (o + len p) = skipn (Z.to_nat o + length p) s.
Proof.
  intros Hocc Hin. apply find_occurences_sound in Hocc.
  destruct Hocc as (Hp & Hall & _). rewrite Forall_forall in Hall.
  destruct (Hall o Hin) as [H0 Hat].
  pose proof (occurs_at_bound _ _ _ Hat Hp) as Hb.
  split; [exact H0|]. split; [exact Hat|]. split.
  - rewrite <- (Z2Nat.id o) at 1 by exact H0. apply slice_to_nat. lia.
  - replace (o + len p) with (Z.of_nat (Z.to_nat o + length p)) by (unfold len; lia).
    apply slice_from_nat. lia.
Qed.

Lemma str_eqb_neq (a b : str) : str_eqb a b = false <-> a <> b.
Proof.
  unfold str_eqb. destruct (list_eq_dec ascii_dec a b); split; congruence.
Qed.

Lemma split_line_spec (L rest : str) :
  ~ In newline L -> split_line (L ++ newline :: rest) = (L, rest).
Proof.
  induction L as [|c L IH]; intros Hn.
  - reflexivity.
  - cbn [app split_line]. destruct (Ascii.eqb c newline) eqn:E.
    + apply Ascii.eqb_eq in E. subst c. destruct Hn. now left.
    + rewrite IH; [reflexivity|]. intros H. apply Hn. now right.
Qed.

Lemma input_line (L rest : str) (w : World) :
  ~ In newline L -> stdin w = L ++ newline :: rest ->
  input w = (Ok L, consumed rest w).
Proof.
  intros Hn Hs. unfold input. rewrite Hs, split_line_spec by exact Hn.
  destruct L; reflexivity.
Qed.

(** Unfolding [apply] once the occurrence list and the choice are known. *)
Ltac run_apply Hocc Hch :=
  unfold apply, bind, lift; rewrite Hocc, Hch.

Lemma apply_substitute_step (fuel : nat) (rule : Rule) (s : str)
    (w w1 : World) (occ : list Z) (o : Z) :
  rhs rule <> lit ":::" ->
  (forall t, rhs rule <> "~"%char :: t) ->
  find_occurences fuel s (lhs rule) = Ok occ ->
  random_choice occ w = (Ok o, w1) ->
  occurs_at (lhs rule) s (Z.to_nat o) /\
  apply fuel rule s w =
    (Ok (firstn (Z.to_nat o) s ++ rhs rule
         ++ skipn (Z.to_nat o + length (lhs rule)) s), drawn w).
Proof.
  intros Hin Hout Hocc Hch.
  destruct (random_choice_inv _ _ _ _ Hch) as [Ho ->].
  destruct (chosen_occurrence _ _ _ _ _ Hocc Ho) as (_ & Hat & Hl & Hr).
  split; [exact Hat|].
  run_apply Hocc Hch.
  apply str_eqb_neq in Hin. rewrite Hin.
  assert (E : is_output (rhs rule) = false).
  { destruct (rhs rule) as [|c t] eqn:Er; [reflexivity|]. simpl.
    destruct (Ascii.eqb c "~") eqn:Ec; [|reflexivity].
    apply Ascii.eqb_eq in Ec. subst c. now destruct (Hout t). }
  rewrite E. unfold ret. now rewrite Hl, Hr.
Qed.

(** C3. A rule whose right-hand side is neither [":::"] nor starts with
    ["~"], applied to [s] at the chosen occurrence [o] of its pattern,
    yields [s[0,o) + rhs + s[o+len(p), len(s))]; [o] is an occurrence of
    the pattern in [s]; nothing is read or written: the state changes by
    the draw of the random generator only. *)
Theorem apply_substitute (fuel : nat) (rule : Rule) (s : str) (w w1 : World)
    (occ : list Z) (o : Z) :
  rhs rule <> lit ":::" ->
  (forall t, rhs rule <> "~"%char :: t) ->
  find_occurences fuel s (lhs rule) = Ok occ ->
  random_choice occ w = (Ok o, w1) ->
  In o occ /\ occurs_at (lhs rule) s (Z.to_nat o) /\
  apply fuel rule s w =
    (Ok (firstn (Z.to_nat o) s ++ rhs rule
         ++ skipn (Z.to_nat o + length (lhs rule)) s), drawn w) /\
  stdin (drawn w) = stdin w /\ stdout (drawn w) = stdout w /\
  stderr (drawn w) = stderr w.
Proof.
  intros Hin Hout Hocc Hch.
  destruct (random_choice_inv _ _ _ _ Hch) as [Ho _].
  destruct (apply_substitute_step fuel rule s w w1 occ o Hin Hout Hocc Hch)
    as [Hat Hrun].
  repeat split; assumption.
Qed.

Lemma apply_substitute_witness :
  apply 5 (Rule_init (lit "ab") (lit "ba")) (lit "xaby")
        (mkWorld [] [] [] (fun _ => 0%nat) 0)
  = (Ok (lit "xbay"), mkWorld [] [] [] (fun _ => 0%nat) 1).
Proof.
  apply (apply_substitute 5 (Rule_init (lit "ab") (lit "ba")) (lit "xaby")
           (mkWorld [] [] [] (fun _ => 0%nat) 0)
           (mkWorld [] [] [] (fun _ => 0%nat) 1) [1] 1).
  - discriminate.
  - discriminate.
  - reflexivity.
  - reflexivity.
Defined.

(** C5. A rule whose right-hand side is ["~"] followed by [text], applied
    to [s] at the chosen occurrence [o] of its pattern, appends [text] to
    standard output and yields [s[0,o) + s[o+len(p), len(s))]: the
    occurrence is removed and nothing is put in its place. *)
Theorem apply_write_output (fuel : nat) (rule : Rule) (text s : str)
    (w w1 : World) (occ : list Z) (o : Z) :
  rhs rule = "~"%char :: text ->
  find_occurences fuel s (lhs rule) = Ok occ ->
  random_choice occ w = (Ok o, w1) ->
  In o occ /\ occurs_at (lhs rule) s (Z.to_nat o) /\
  apply fuel rule s w =
    (Ok (firstn (Z.to_nat o) s ++ skipn (Z.to_nat o + length (lhs rule)) s),
     printed text (drawn w)) /\
  stdout (printed text (drawn w)) = stdout w ++ text /\
  stdin (printed text (drawn w)) = stdin w.
Proof.
  intros Hrhs Hocc Hch.
  destruct (random_choice_inv _ _ _ _ Hch) as [Ho ->].
  destruct (chosen_occurrence _ _ _ _ _ Hocc Ho) as (_ & Hat & Hl & Hr).
  split; [exact Ho|]. split; [exact Hat|]. split; [|split; reflexivity].
  run_apply Hocc Hch. rewrite Hrhs.
  replace (str_eqb ("~"%char :: text) (lit ":::")) with false
    by (symmetry; apply str_eqb_neq; discriminate).
  change (is_output ("~"%char :: text)) with true. cbv iota.
  change 1 with (Z.of_nat 1). rewrite slice_from_nat by (simpl; lia).
  unfold write_stdout, ret. cbn [skipn]. now rewrite Hl, Hr.
Qed.

Lemma apply_write_output_witness :
  apply 5 (Rule_init (lit "A") (lit "~hello")) (lit "xAy")
        (mkWorld [] [] [] (fun _ => 0%nat) 0)
  = (Ok (lit "xy"), mkWorld [] (lit "hello") [] (fun _ => 0%nat) 1).
Proof.
  apply (apply_write_output 5 (Rule_init (lit "A") (lit "~hello")) (lit "hello")
           (lit "xAy") (mkWorld [] [] [] (fun _ => 0%nat) 0)
           (mkWorld [] [] [] (fun _ => 0%nat) 1) [1] 1).
  - reflexivity.
  - reflexivity.
  - reflexivity.
Defined.

Lemma split_line_last (L : str) : ~ In newline L -> split_line L = (L, []).
Proof.
  induction L as [|c L IH]; intros Hn; [reflexivity|].
  cbn [split_line]. destruct (Ascii.eqb c newline) eqn:E.
  - apply Ascii.eqb_eq in E. subst c. destruct Hn. now left.
  - rewrite IH; [reflexivity|]. intros H. apply Hn. now right.
Qed.

Lemma input_last_line (L : str) (w : World) :
  L <> [] -> ~ In newline L -> stdin w = L ->
  input w = (Ok L, consumed [] w).
Proof.
  intros Hne Hn Hs. unfold input. rewrite Hs, split_line_last by exact Hn.
  destruct L; [congruence | reflexivity].
Qed.

Lemma input_eof (w : World) : stdin w = [] -> input w = (Raise EOFError, w).
Proof. intros Hs. unfold input. now rewrite Hs. Qed.

(** An input rule reads its replacement after the occurrence is chosen. *)
Lemma apply_read_input_run (fuel : nat) (rule : Rule) (s : str)
    (w w1 : World) (occ : list Z) (o : Z) :
  rhs rule = lit ":::" ->
  find_occurences fuel s (lhs rule) = Ok occ ->
  random_choice occ w = (Ok o, w1) ->
  apply fuel rule s w =
    (in_between <- input ;;
     ret (firstn (Z.to_nat o) s ++ in_between
          ++ skipn (Z.to_nat o + length (lhs rule)) s)) (drawn w).
Proof.
  intros Hrhs Hocc Hch.
  destruct (random_choice_inv _ _ _ _ Hch) as [Ho ->].
  destruct (chosen_occurrence _ _ _ _ _ Hocc Ho) as (_ & _ & Hl & Hr).
  run_apply Hocc Hch. rewrite Hrhs.
  replace (str_eqb (lit ":::") (lit ":::")) with true by reflexivity.
  now rewrite Hl, Hr.
Qed.

Lemma apply_read_input_step (fuel : nat) (rule : Rule) (s L rest : str)
    (w w1 : World) (occ : list Z) (o : Z) :
  rhs rule = lit ":::" ->
  find_occurences fuel s (lhs rule) = Ok occ ->
  random_choice occ w = (Ok o, w1) ->
  ~ In newline L ->
  stdin w = L ++ newline :: rest ->
  apply fuel rule s w =
    (Ok (firstn (Z.to_nat o) s ++ L
         ++ skipn (Z.to_nat o + length (lhs rule)) s),
     consumed rest (drawn w)).
Proof.
  intros Hrhs Hocc Hch HL Hin.
  rewrite (apply_read_input_run fuel rule s w w1 occ o Hrhs Hocc Hch).
  unfold bind. now rewrite (input_line L rest (drawn w) HL Hin).
Qed.

(** C6. A rule whose right-hand side is [":::"], applied to [s] at the
    chosen occurrence [o] of its pattern while standard input starts with
    the line [L] and its newline, yields [s[0,o) + L + s[o+len(p), len(s))]
    and leaves on standard input exactly what follows that newline; nothing
    is written.  Two applications in sequence read the first line and then
    the second.  A last line that no newline ends is read whole, and on an
    exhausted standard input the application raises [EOFError]. *)
Theorem apply_read_input :
  (forall (fuel : nat) (rule : Rule) (s L rest : str) (w w1 : World)
          (occ : list Z) (o : Z),
     rhs rule = lit ":::" ->
     find_occurences fuel s (lhs rule) = Ok occ ->
     random_choice occ w = (Ok o, w1) ->
     ~ In newline L ->
     stdin w = L ++ newline :: rest ->
     In o occ /\ occurs_at (lhs rule) s (Z.to_nat o) /\
     apply fuel rule s w =
       (Ok (firstn (Z.to_nat o) s ++ L
            ++ skipn (Z.to_nat o + length (lhs rule)) s),
        consumed rest (drawn w)) /\
     stdin (consumed rest (drawn w)) = rest /\
     stdout (consumed rest (drawn w)) = stdout w) /\
  (forall (fuel1 fuel2 : nat) (r1 r2 : Rule) (s L1 L2 rest : str)
          (w w1 w2 : World) (occ1 occ2 : list Z) (o1 o2 : Z),
     rhs r1 = lit ":::" -> rhs r2 = lit ":::" ->
     ~ In newline L1 -> ~ In newline L2 ->
     stdin w = L1 ++ newline :: L2 ++ newline :: rest ->
     find_occurences fuel1 s (lhs r1) = Ok occ1 ->
     random_choice occ1 w = (Ok o1, w1) ->
     let s1 := firstn (Z.to_nat o1) s ++ L1
               ++ skipn (Z.to_nat o1 + length (lhs r1)) s in
     find_occurences fuel2 s1 (lhs r2) = Ok occ2 ->
     random_choice occ2 (consumed (L2 ++ newline :: rest) w1) = (Ok o2, w2) ->
     bind (apply fuel1 r1 s) (apply fuel2 r2) w =
       (Ok (firstn (Z.to_nat o2) s1 ++ L2
            ++ skipn (Z.to_nat o2 + length (lhs r2)) s1),
        consumed rest (drawn (drawn w)))) /\
  (forall (fuel : nat) (rule : Rule) (s L : str) (w w1 : World)
          (occ : list Z) (o : Z),
     rhs rule = lit ":::" ->
     find_occurences fuel s (lhs rule) = Ok occ ->
     random_choice occ w = (Ok o, w1) ->
     (L <> [] -> ~ In newline L -> stdin w = L ->
      apply fuel rule s w =
        (Ok (firstn (Z.to_nat o) s ++ L
             ++ skipn (Z.to_nat o + length (lhs rule)) s),
         consumed [] (drawn w))) /\
     (stdin w = [] -> apply fuel rule s w = (Raise EOFError, drawn w))).
Proof.
  split; [|split].
  - intros fuel rule s L rest w w1 occ o Hrhs Hocc Hch HL Hin.
    destruct (random_choice_inv _ _ _ _ Hch) as [Ho _].
    destruct (chosen_occurrence _ _ _ _ _ Hocc Ho) as (_ & Hat & _).
    split; [exact Ho|]. split; [exact Hat|]. split; [|split; reflexivity].
    eapply apply_read_input_step; eassumption.
  - intros fuel1 fuel2 r1 r2 s L1 L2 rest w w1 w2 occ1 occ2 o1 o2
      Hr1 Hr2 HL1 HL2 Hin Hocc1 Hch1 s1 Hocc2 Hch2.
    unfold bind at 1.
    rewrite (apply_read_input_step fuel1 r1 s L1 (L2 ++ newline :: rest)
               w w1 occ1 o1 Hr1 Hocc1 Hch1 HL1 Hin).
    fold s1.
    destruct (random_choice_inv _ _ _ _ Hch1) as [_ ->].
    rewrite (apply_read_input_step fuel2 r2 s1 L2 rest _ _ occ2 o2 Hr2 Hocc2
               Hch2 HL2 eq_refl).
    reflexivity.
  - intros fuel rule s L w w1 occ o Hrhs Hocc Hch.
    rewrite (apply_read_input_run fuel rule s w w1 occ o Hrhs Hocc Hch).
    unfold bind. split.
    + intros Hne HL Hin. now rewrite (input_last_line L (drawn w) Hne HL Hin).
    + intros Hin. now rewrite (input_eof (drawn w) Hin).
Qed.

Lemma apply_read_input_witness :
  apply 5 (Rule_init (lit "B") (lit ":::")) (lit "xBy")
        (mkWorld (lit "Q" ++ newline :: lit "next") [] [] (fun _ => 0%nat) 0)
  = (Ok (lit "xQy"), mkWorld (lit "next") [] [] (fun _ => 0%nat) 1) /\
  bind (apply 5 (Rule_init (lit "B") (lit ":::")) (lit "xBBy"))
       (apply 5 (Rule_init (lit "B") (lit ":::")))
       (mkWorld (lit "Q" ++ newline :: lit "R" ++ newline :: lit "next")
                [] [] (fun _ => 1%nat) 0)
  = (Ok (lit "xRQy"),
     mkWorld (lit "next") [] [] (fun _ => 1%nat) 2).
Proof.
  split.
  - apply (proj1 apply_read_input 5%nat (Rule_init (lit "B") (lit ":::")) (lit "xBy")
             (lit "Q") (lit "next")
             (mkWorld (lit "Q" ++ newline :: lit "next") [] [] (fun _ => 0%nat) 0)
             (mkWorld (lit "Q" ++ newline :: lit "next") [] [] (fun _ => 0%nat) 1)
             [1] 1).
    + reflexivity.
    + reflexivity.
    + reflexivity.
    + intros [H | []]. discriminate H.
    + reflexivity.
  - apply (proj1 (proj2 apply_read_input) 5%nat 5%nat (Rule_init (lit "B") (lit ":::"))
             (Rule_init (lit "B") (lit ":::")) (lit "xBBy") (lit "Q") (lit "R")
             (lit "next")
             (mkWorld (lit "Q" ++ newline :: lit "R" ++ newline :: lit "next")
                      [] [] (fun _ => 1%nat) 0)
             (mkWorld (lit "Q" ++ newline :: lit "R" ++ newline :: lit "next")
                      [] [] (fun _ => 1%nat) 1)
             (mkWorld (lit "R" ++ newline :: lit "next") [] [] (fun _ => 1%nat) 2)
             [1; 2] [1] 2 1).
    + reflexivity.
    + reflexivity.
    + intros [H | []]. discriminate H.
    + intros [H | []]. discriminate H.
    + reflexivity.
    + reflexivity.
    + reflexivity.
    + reflexivity.
    + reflexivity.
Defined.

(** ** Applicability and occurrence search agree *)

Lemma input_not_IndexError (w : World) : fst (input w) <> Raise IndexError.
Proof.
  unfold input. destruct (stdin w); [discriminate|].
  destruct (split_line _). discriminate.
Qed.

Lemma find_occurences_no_raise (p : str) (fuel : nat) :
  forall (s : str) (off : Z) (acc : list Z) (e : exn),
    find_occurences_loop fuel s p off acc <> Raise e.
Proof.
  induction fuel as [|fuel IH]; intros s off acc e; [discriminate|].
  simpl. destruct (negb (find s p =? -1)); [apply IH | discriminate].
Qed.

(** C4. The occurrence list of a rule that [applicable_rules] returned for
    [s] is never empty when [find_occurences] returns it, so
    [random.choice] selects one of its elements and [apply] never raises
    [IndexError]; with a non-empty pattern [find_occurences] does return.
    Both tests decide the same predicate: a returned occurrence list is
    non-empty exactly when the pattern occurs in [s]. *)
Theorem applicable_rule_has_occurrence (R : list Rule) (s : str) (r : Rule) :
  In r (applicable_rules R s) ->
  (forall fuel occ,
     find_occurences fuel s (lhs r) = Ok occ ->
     occ <> [] /\
     forall w, exists o, random_choice occ w = (Ok o, drawn w) /\ In o occ) /\
  (forall fuel w, fst (apply fuel r s w) <> Raise IndexError) /\
  (lhs r <> [] ->
     exists occ, occ <> [] /\
       forall fuel, (length s < fuel)%nat ->
         find_occurences fuel s (lhs r) = Ok occ) /\
  (forall p fuel occ,
     find_occurences fuel s p = Ok occ ->
     (occ <> [] <-> find s p <> -1) /\ (find s p <> -1 <-> occurs p s)).
Proof.
  intros Hin. apply applicable_rules_In in Hin. destruct Hin as [_ Hocc].
  apply find_occurs in Hocc.
  assert (Hne : forall fuel occ,
             find_occurences fuel s (lhs r) = Ok occ -> occ <> []).
  { intros fuel occ H. now apply (find_occurences_nonempty _ _ _ _ H). }
  split; [|split; [|split]].
  - intros fuel occ H. split; [now apply (Hne fuel)|].
    intros w. apply random_choice_nonempty. now apply (Hne fuel).
  - intros fuel w. unfold apply, bind, lift.
    destruct (find_occurences fuel s (lhs r)) as [occ|e|] eqn:E;
      [|now apply find_occurences_no_raise in E|discriminate].
    destruct (random_choice_nonempty occ w (Hne _ _ E)) as (o & -> & _).
    destruct (str_eqb (rhs r) (lit ":::")).
    + pose proof (input_not_IndexError (drawn w)) as Hi.
      destruct (input (drawn w)) as [[L|e|] w']; simpl in *;
        [discriminate | exact Hi | discriminate].
    + destruct (is_output (rhs r)); discriminate.
  - intros Hp. destruct (find_occurences_spec (lhs r) s Hp) as (occ & Hrun & _).
    exists occ. split; [|exact Hrun].
    apply (Hne (S (length s))). apply Hrun. lia.
  - intros p fuel occ H. split.
    + now apply (find_occurences_nonempty _ _ _ _ H).
    + apply find_occurs.
Qed.

Lemma applicable_rule_has_occurrence_witness :
  (forall fuel occ,
     find_occurences fuel (lit "banana") (lit "an") = Ok occ ->
     occ <> [] /\
     forall w, exists o, random_choice occ w = (Ok o, drawn w) /\ In o occ) /\
  find_occurences 7 (lit "banana") (lit "an") = Ok [1; 3].
Proof.
  split; [|reflexivity].
  apply (applicable_rule_has_occurrence
           [Rule_init (lit "x") (lit "y"); Rule_init (lit "an") (lit "")]
           (lit "banana") (Rule_init (lit "an") (lit ""))).
  simpl. now left.
Defined.

(** ** The halted state *)

Lemma bind_Ok_inv {A B : Type} (c : M A) (k : A -> M B) (w w' : World) (b : B) :
  bind c k w = (Ok b, w') ->
  exists a w1, c w = (Ok a, w1) /\ k a w1 = (Ok b, w').
Proof.
  unfold bind. destruct (c w) as [[a|e|] w1]; try discriminate.
  intros H. now exists a, w1.
Qed.

(** One iteration of the loop of [execute]. *)
Lemma execute_loop_step (fuel : nat) (R : list Rule) (s : str) (v : bool) :
  execute_loop (S fuel) R s v =
  match applicable_rules R s with
  | [] => ret s
  | rules =>
      (if v then
         time_sleep ;;;
         write_stdout (lit "string:" ++ lit " " ++ s ++ [newline])
       else ret tt) ;;;
      r <- random_choice rules ;;
      string' <- apply fuel r s ;;
      execute_loop fuel R string' v
  end.
Proof. reflexivity. Qed.

Lemma execute_loop_halted (fuel : nat) (R : list Rule) (s : str)
    (v : bool) (w : World) :
  applicable_rules R s = [] -> execute_loop (S fuel) R s v w = (Ok s, w).
Proof. intros H. simpl. now rewrite H. Qed.

(** What the loop returns is a string to which no rule applies. *)
Lemma execute_loop_returns_halted (R : list Rule) (fuel : nat) :
  forall (s s' : str) (v : bool) (w w' : World),
    execute_loop fuel R s v w = (Ok s', w') -> applicable_rules R s' = [].
Proof.
  induction fuel as [|fuel IH]; intros s s' v w w' H; [discriminate|].
  rewrite execute_loop_step in H.
  destruct (applicable_rules R s) as [|r rs] eqn:E.
  - injection H as <- _. exact E.
  - apply bind_Ok_inv in H. destruct H as (_ & wa & _ & H).
    apply bind_Ok_inv in H. destruct H as (r' & wb & _ & H).
    apply bind_Ok_inv in H. destruct H as (s1 & wc & _ & H).
    exact (IH _ _ _ _ _ H).
Qed.

(** C9. When no rule applies to [s], the loop of [execute] ends at its
    first test with [s] as the final string and the state untouched: no
    draw, nothing read, nothing written.  [execute] then prints that final
    string, which is all it writes.  The string a run of the loop returns
    is such a halted string, so running the loop on it again returns it
    with the state untouched. *)
Theorem execute_halted_idempotent (R : list Rule) :
  (forall (s : str) (fuel : nat) (v : bool) (w : World),
     applicable_rules R s = [] ->
     execute_loop (S fuel) R s v w = (Ok s, w) /\
     execute (S fuel) R s v w = (Ok tt, printed (s ++ [newline]) w) /\
     stdin (printed (s ++ [newline]) w) = stdin w /\
     rand_pos (printed (s ++ [newline]) w) = rand_pos w) /\
  (forall (s s' : str) (fuel fuel' : nat) (v v' : bool) (w w' w'' : World),
     execute_loop fuel R s v w = (Ok s', w') ->
     execute_loop (S fuel') R s' v' w'' = (Ok s', w'')).
Proof.
  split.
  - intros s fuel v w H. split; [now apply execute_loop_halted|].
    split; [|split; reflexivity].
    unfold execute, bind. now rewrite execute_loop_halted.
  - intros s s' fuel fuel' v v' w w' w'' H.
    apply execute_loop_halted. eapply execute_loop_returns_halted; eassumption.
Qed.

Lemma execute_halted_idempotent_witness :
  execute 1 [Rule_init (lit "a") (lit "b")] (lit "xyz") true
          (mkWorld (lit "in") (lit "out") [] (fun n => n) 0)
  = (Ok tt, mkWorld (lit "in") (lit "out" ++ lit "xyz" ++ [newline]) []
                    (fun n => n) 0) /\
  execute_loop 1 [Rule_init (lit "a") (lit "")] (lit "bnn") false
               (mkWorld [] [] [] (fun n => n) 6)
  = (Ok (lit "bnn"), mkWorld [] [] [] (fun n => n) 6).
Proof.
  split.
  - apply (proj1 (execute_halted_idempotent [Rule_init (lit "a") (lit "b")])
             (lit "xyz") 0%nat true
             (mkWorld (lit "in") (lit "out") [] (fun n => n) 0)).
    reflexivity.
  - apply (proj2 (execute_halted_idempotent [Rule_init (lit "a") (lit "")])
             (lit "banana") (lit "bnn") 10%nat 0%nat false false
             (mkWorld [] [] [] (fun n => n) 0)
             (mkWorld [] [] [] (fun n => n) 6)
             (mkWorld [] [] [] (fun n => n) 6)).
    reflexivity.
Defined.

(** ** Deleting every [a] *)

Lemma bind_Ok {A B : Type} (c : M A) (k : A -> M B) (w w1 : World) (a : A) :
  c w = (Ok a, w1) -> bind c k w = k a w1.
Proof. intros H. unfold bind. now rewrite H. Qed.

Lemma occurs_at_single (c : ascii) (s : str) (o : nat) :
  occurs_at [c] s o -> s = firstn o s ++ c :: skipn (o + 1) s.
Proof.
  unfold occurs_at. intros H.
  rewrite <- (firstn_skipn o s) at 1. f_equal.
  rewrite Nat.add_comm, <- skipn_skipn.
  destruct (skipn o s) as [|d t]; [discriminate|].
  simpl in H. injection H as ->. reflexivity.
Qed.

Lemma apply_Ok_inv (fuel : nat) (rule : Rule) (s s' : str) (w w' : World) :
  apply fuel rule s w = (Ok s', w') ->
  exists occ o,
    find_occurences fuel s (lhs rule) = Ok occ /\
    random_choice occ w = (Ok o, drawn w).
Proof.
  unfold apply. intros H.
  apply bind_Ok_inv in H. destruct H as (occ & w1 & Hocc & H).
  unfold lift in Hocc. injection Hocc as Hocc <-.
  apply bind_Ok_inv in H. destruct H as (o & w2 & Hch & _).
  exists occ, o. split; [exact Hocc|].
  now destruct (random_choice_inv _ _ _ _ Hch) as [_ <-].
Qed.

Section DeleteA.

Let a : ascii := "a"%char.
Let del_a : Rule := Rule_init (lit "a") (lit "").
Let not_a (c : ascii) : bool := negb (Ascii.eqb c a).

(** An application of the rule takes one [a] out of the string. *)
Lemma apply_delete_a (fuel : nat) (s s' : str) (w w' : World) :
  apply fuel del_a s w = (Ok s', w') ->
  (exists o : nat, s = firstn o s ++ a :: skipn (o + 1) s /\
                   s' = firstn o s ++ skipn (o + 1) s) /\
  w' = drawn w.
Proof.
  intros H. destruct (apply_Ok_inv _ _ _ _ _ _ H) as (occ & o & Hocc & Hch).
  destruct (apply_substitute_step fuel del_a s w (drawn w) occ o)
    as (Hat & Hrun); try assumption; try discriminate.
  rewrite Hrun in H. injection H as <- <-. split; [|reflexivity].
  exists (Z.to_nat o). split; [now apply occurs_at_single | reflexivity].
Qed.

Lemma delete_one_a (s : str) (o : nat) :
  s = firstn o s ++ a :: skipn (o + 1) s ->
  let s' := firstn o s ++ skipn (o + 1) s in
  length s = S (length s') /\
  count_occ ascii_dec s a = S (count_occ ascii_dec s' a) /\
  filter not_a s' = filter not_a s.
Proof.
  intros Hs s'. subst s'.
  set (l := firstn o s) in *. set (r := skipn (o + 1) s) in *.
  rewrite Hs. split; [|split].
  - rewrite !length_app. simpl. lia.
  - rewrite !count_occ_app. simpl.
    destruct (ascii_dec a a); [lia | congruence].
  - rewrite !filter_app. reflexivity.
Qed.

Lemma no_a_filter (s : str) : ~ occurs [a] s -> filter not_a s = s.
Proof.
  intros H. induction s as [|c s IH]; [reflexivity|]. simpl.
  unfold not_a at 1. destruct (Ascii.eqb c a) eqn:E.
  - apply Ascii.eqb_eq in E. subst c. destruct H. now exists [], s.
  - simpl. f_equal. apply IH. intros (l & r & ->). apply H.
    now exists (c :: l), r.
Qed.

(** The trace line of the verbose mode reads and draws nothing. *)
Lemma trace_line (v : bool) (text : str) (w : World) :
  exists wa,
    (if v then time_sleep ;;; write_stdout text else ret tt) w = (Ok tt, wa) /\
    stdin wa = stdin w /\ rand wa = rand w /\ rand_pos wa = rand_pos w /\
    (v = false -> wa = w).
Proof.
  destruct v.
  - exists (printed text w). repeat split. discriminate.
  - exists w. repeat split.
Qed.

(** Whatever the draws, the loop ends with every [a] gone. *)
Lemma execute_loop_delete_a :
  forall (n : nat) (s : str), length s = n ->
  forall (fuel : nat) (v : bool) (w : World), (n + 1 < fuel)%nat ->
  exists w',
    execute_loop fuel [del_a] s v w = (Ok (filter not_a s), w') /\
    stdin w' = stdin w /\ (v = false -> stdout w' = stdout w).
Proof.
  induction n as [|n IH]; intros s Hlen fuel v w Hfuel;
    (destruct fuel as [|fuel]; [lia|]); rewrite execute_loop_step;
    cbn [applicable_rules lhs del_a Rule_init];
    destruct (find_cases s (lit "a")) as [[Hf Hno] | (l & r & Hs & Hf)].
  1, 3: rewrite Hf; cbn [Z.eqb negb]; exists w;
        rewrite (no_a_filter s Hno); now repeat split.
  - subst s. rewrite length_app in Hlen. simpl in Hlen. lia.
  - rewrite Hf, len_not_minus_one. cbn [negb].
    destruct (trace_line v (lit "string:" ++ lit " " ++ s ++ [newline]) w)
      as (wa & Hwa & Hin & _ & _ & Hquiet).
    rewrite (bind_Ok _ _ _ _ _ Hwa).
    destruct (random_choice_nonempty [Rule_init (lit "a") (lit "")] wa
                ltac:(discriminate)) as (r0 & Hch & [<- | []]).
    rewrite (bind_Ok _ _ _ _ _ Hch).
    destruct (find_occurences_spec (lit "a") s ltac:(discriminate))
      as (occ & Hrun & _).
    assert (Hocc : find_occurences fuel s (lit "a") = Ok occ)
      by (apply Hrun; lia).
    assert (Hne : occ <> []).
    { apply (find_occurences_nonempty _ _ _ _ Hocc).
      rewrite Hf. unfold len. lia. }
    destruct (random_choice_nonempty occ (drawn wa) Hne) as (o & Hco & _).
    destruct (apply_substitute_step fuel del_a s (drawn wa) (drawn (drawn wa)) occ o)
      as (Hat & Happ); try assumption; try discriminate.
    rewrite (bind_Ok _ _ _ _ _ Happ).
    apply occurs_at_single in Hat.
    destruct (delete_one_a s _ Hat) as (Hl & _ & Hfil).
    cbn [rhs del_a Rule_init lit String.list_ascii_of_string app lhs length] in *.
    destruct (IH (firstn (Z.to_nat o) s ++ skipn (Z.to_nat o + 1) s)
                ltac:(lia) fuel v (drawn (drawn wa)) ltac:(lia))
      as (w' & Hloop & Hin' & Hout').
    exists w'. rewrite Hloop, Hfil. split; [reflexivity|]. split.
    + rewrite Hin'. exact Hin.
    + intros Hv. rewrite (Hout' Hv), (Hquiet Hv). reflexivity.
Qed.

End DeleteA.

(** C8. With the single rule that replaces ["a"] by the empty string and
    the initial string ["banana"], the loop of [execute] ends, for every
    sequence of draws of the random generator, in both modes and with any
    fuel above 7, and the final string is ["bnn"]; in the quiet mode
    [execute] writes that string and its newline and nothing else.  Every
    application of the rule shortens the string by one character and takes
    one ["a"] out of it. *)
Theorem execute_banana (fuel : nat) (v : bool) (w : World) :
  (7 < fuel)%nat ->
  (exists w',
     execute_loop fuel [Rule_init (lit "a") (lit "")] (lit "banana") v w
       = (Ok (lit "bnn"), w') /\
     stdin w' = stdin w /\ (v = false -> stdout w' = stdout w)) /\
  (exists w',
     execute fuel [Rule_init (lit "a") (lit "")] (lit "banana") false w
       = (Ok tt, w') /\
     stdout w' = stdout w ++ lit "bnn" ++ [newline] /\ stdin w' = stdin w) /\
  (forall fuel' s s' w1 w1',
     apply fuel' (Rule_init (lit "a") (lit "")) s w1 = (Ok s', w1') ->
     length s = S (length s') /\
     count_occ ascii_dec s "a"%char = S (count_occ ascii_dec s' "a"%char)).
Proof.
  intros Hfuel. split; [|split].
  - exact (execute_loop_delete_a 6 (lit "banana") eq_refl fuel v w ltac:(lia)).
  - destruct (execute_loop_delete_a 6 (lit "banana") eq_refl fuel false w ltac:(lia))
      as (w' & Hloop & Hin & Hout).
    exists (printed (lit "bnn" ++ [newline]) w').
    unfold execute. rewrite (bind_Ok _ _ _ _ _ Hloop).
    split; [reflexivity|]. split.
    + cbn [stdout printed]. now rewrite (Hout eq_refl).
    + exact Hin.
  - intros fuel' s s' w1 w1' H.
    destruct (apply_delete_a _ _ _ _ _ H) as [(o & Hs & ->) _].
    destruct (delete_one_a s o Hs) as (Hl & Hc & _). now split.
Qed.

Lemma execute_banana_witness :
  (exists w',
     execute_loop 8 [Rule_init (lit "a") (lit "")] (lit "banana") true
                  (mkWorld [] [] [] (fun n => n) 0)
       = (Ok (lit "bnn"), w') /\
     stdin w' = [] /\ (true = false -> stdout w' = [])) /\
  (exists w',
     execute 8 [Rule_init (lit "a") (lit "")] (lit "banana") false
             (mkWorld [] [] [] (fun n => n) 0)
       = (Ok tt, w') /\
     stdout w' = [] ++ lit "bnn" ++ [newline] /\ stdin w' = []) /\
  (forall fuel' s s' w1 w1',
     apply fuel' (Rule_init (lit "a") (lit "")) s w1 = (Ok s', w1') ->
     length s = S (length s') /\
     count_occ ascii_dec s "a"%char = S (count_occ ascii_dec s' "a"%char)).
Proof.
  apply (execute_banana 8 true (mkWorld [] [] [] (fun n => n) 0)). lia.
Defined.

(** ** The loader and empty left-hand sides *)

Lemma error_raises {A : Type} (msg : str) (lineno : Z) (w : World) :
  exists w', @error A msg lineno w = (Raise (SystemExit 1), w').
Proof.
  unfold error, bind, raise.
  destruct (negb (lineno =? -1)); eexists; reflexivity.
Qed.

Lemma error_not_Ok {A : Type} (msg : str) (lineno : Z) (w w' : World) (a : A) :
  error msg lineno w <> (Ok a, w').
Proof.
  destruct (error_raises (A := A) msg lineno w) as [w1 E]. rewrite E. discriminate.
Qed.

Lemma split_last_nil_left (s sep r : str) :
  split_last s sep = Some ([], r) -> startswith s sep = true.
Proof.
  destruct s as [|c s]; simpl.
  - destruct sep; [reflexivity | discriminate].
  - destruct (split_last s sep) as [[l r']|]; [discriminate|].
    destruct (startswith (c :: s) sep); [reflexivity | discriminate].
Qed.

(** A line on which the pattern of the source matches with an empty first
    group starts with the separator, so it is no blank line. *)
Lemma empty_lhs_line_not_blank (line r : str) :
  re_match_rule line = Some ([], r) ->
  str_eqb line (lit "") || isspace line = false.
Proof.
  unfold re_match_rule. intros H. apply split_last_nil_left in H.
  destruct line as [|c line]; [discriminate H|].
  cbn [dot_star] in H. destruct (Ascii.eqb c newline); [discriminate H|].
  cbn [lit String.list_ascii_of_string startswith] in H.
  apply andb_true_iff in H. destruct H as [H _].
  apply Ascii.eqb_eq in H. subst c. reflexivity.
Qed.

Lemma read_rulebase_loop_nonempty (file : list str) :
  forall (rulebase rb : list Rule) (rest : list str) (lineno : Z) (w w' : World),
    Forall (fun r => lhs r <> []) rulebase ->
    read_rulebase_loop file rulebase lineno w = (Ok (rb, rest), w') ->
    Forall (fun r => lhs r <> []) rb /\ w' = w.
Proof.
  induction file as [|line file IH]; intros rulebase rb rest lineno w w' Hall H.
  - simpl in H. now apply error_not_Ok in H.
  - cbn [read_rulebase_loop] in H.
    destruct (str_eqb (rstrip line) (lit "") || isspace (rstrip line)).
    + exact (IH _ _ _ _ _ _ Hall H).
    + destruct (re_match_rule (rstrip line)) as [[l r]|].
      * destruct (str_eqb l (lit "")) eqn:El.
        -- injection H as <- _ <-. now split.
        -- apply str_eqb_neq in El. refine (IH _ _ _ _ _ _ _ H).
           apply Forall_app. split; [exact Hall|]. now constructor.
      * now apply error_not_Ok in H.
Qed.

(** C7, as the code has it.  No error is raised for an empty left-hand
    side.  [Rule.__init__] stores whatever left-hand side it is given.
    [read_rulebase] takes a line whose left-hand side is empty for the end
    of the rulebase: it returns the rules read so far and leaves the
    following lines in the file, writing nothing.  Hence every rule of a
    rulebase that [read_rulebase] returns has a non-empty pattern. *)
Theorem read_rulebase_patterns_nonempty :
  (forall l r, lhs (Rule_init l r) = l /\ rhs (Rule_init l r) = r) /\
  (forall line file rulebase lineno w r,
     re_match_rule (rstrip line) = Some ([], r) ->
     read_rulebase_loop (line :: file) rulebase lineno w
       = (Ok (rulebase, file), w)) /\
  (forall file w rb rest w',
     read_rulebase file w = (Ok (rb, rest), w') ->
     Forall (fun r => lhs r <> []) rb /\ w' = w).
Proof.
  split; [now split|]. split.
  - intros line file rulebase lineno w r H. cbn [read_rulebase_loop].
    now rewrite (empty_lhs_line_not_blank _ _ H), H.
  - intros file w rb rest w' H.
    now apply (read_rulebase_loop_nonempty file [] rb rest 1 w w').
Qed.

Lemma read_rulebase_patterns_nonempty_witness :
  read_rulebase_loop [lit "::=end"; lit "banana"] [Rule_init (lit "a") (lit "b")] 2
                     (mkWorld [] [] [] (fun n => n) 0)
    = (Ok ([Rule_init (lit "a") (lit "b")], [lit "banana"]),
       mkWorld [] [] [] (fun n => n) 0) /\
  Forall (fun r => lhs r <> [])
         [Rule_init (lit "a") (lit "b"); Rule_init (lit "c::=d") (lit "e")].
Proof.
  split.
  - apply (proj1 (proj2 read_rulebase_patterns_nonempty) (lit "::=end")
             [lit "banana"] [Rule_init (lit "a") (lit "b")] 2
             (mkWorld [] [] [] (fun n => n) 0) (lit "end")).
    reflexivity.
  - apply (proj2 (proj2 read_rulebase_patterns_nonempty)
             [lit "a::=b"; lit "  "; lit "c::=d::=e "; lit "::=x"; lit "banana"]
             (mkWorld [] [] [] (fun n => n) 0)
             [Rule_init (lit "a") (lit "b"); Rule_init (lit "c::=d") (lit "e")]
             [lit "banana"]
             (mkWorld [] [] [] (fun n => n) 0)).
    reflexivity.
Defined.

(** C7, as the specification states it, fails: a rule with an empty
    left-hand side is constructed without error, and the loader given a
    line with an empty left-hand side returns normally. *)
Lemma empty_lhs_not_rejected :
  lhs (Rule_init (lit "") (lit "c")) = lit "" /\
  read_rulebase [lit "a::=b"; lit "::=c"; lit "banana"]
                (mkWorld [] [] [] (fun n => n) 0)
    = (Ok ([Rule_init (lit "a") (lit "b")], [lit "banana"]),
       mkWorld [] [] [] (fun n => n) 0) /\
  ~ fails (fst (read_rulebase [lit "::=c"] (mkWorld [] [] [] (fun n => n) 0))).
Proof.
  split; [reflexivity|]. split; [reflexivity|]. intros H. exact H.
Qed.

(** * Further properties of the engine *)

(** ** The scan finds every occurrence it does not step over *)

Lemma firstn_startswith (s p : str) :
  firstn (length p) s = p -> startswith s p = true.
Proof.
  intros H. apply startswith_spec. exists (skipn (length p) s).
  rewrite <- H at 1. symmetry. apply firstn_skipn.
Qed.

(** [find] answers the lowest offset: no occurrence starts before it. *)
Lemma find_le_occurrence (p : str) :
  forall (s : str) (q : nat),
    occurs_at p s q -> (q <= length s)%nat -> 0 <= find s p <= Z.of_nat q.
Proof.
  induction s as [|c s IH]; intros q Hat Hq.
  - simpl in Hq. assert (q = 0)%nat by lia. subst q.
    unfold occurs_at in Hat. simpl in Hat. rewrite firstn_nil in Hat. subst p.
    simpl. lia.
  - cbn [find]. destruct (startswith (c :: s) p) eqn:E; [lia|].
    destruct q as [|q].
    + unfold occurs_at in Hat. simpl skipn in Hat.
      apply firstn_startswith in Hat. congruence.
    + assert (Hat' : occurs_at p s q) by exact Hat.
      simpl in Hq. specialize (IH q Hat' ltac:(lia)).
      destruct (find s p =? -1) eqn:E1; lia.
Qed.

Lemma occurs_at_unshift (l p s : str) (q : nat) :
  occurs_at p (l ++ s) (length l + q) -> occurs_at p s q.
Proof.
  unfold occurs_at.
  now rewrite Nat.add_comm, <- skipn_skipn, skipn_length_app.
Qed.

Lemma find_occurences_loop_covers (p : str) (Hp : p <> []) (fuel : nat) :
  forall (s : str) (off : Z) (acc occ : list Z),
    find_occurences_loop fuel s p off acc = Ok occ ->
    forall q, occurs_at p s q ->
      exists o, In o occ /\ o <= off + Z.of_nat q < o + len p.
Proof.
  induction fuel as [|fuel IH]; intros s off acc occ H q Hat; [discriminate|].
  pose proof (occurs_at_bound _ _ _ Hat Hp) as Hb.
  pose proof (find_le_occurrence p s q Hat ltac:(lia)) as Hfq.
  cbn [find_occurences_loop] in H.
  destruct (find_cases s p) as [[Hf _] | (l & r & Hs & Hf)]; [lia|].
  rewrite Hf, len_not_minus_one in H. cbn [negb] in H.
  rewrite Hs in H at 1. rewrite slice_from_split in H.
  rewrite Hf in Hfq. unfold len in Hfq.
  destruct (Nat.lt_ge_cases q (length l + length p)) as [Hlt | Hge].
  - exists (len l + off). split.
    + apply find_occurences_loop_extends in H. destruct H as [t ->].
      apply in_or_app. left. apply in_or_app. right. now left.
    + unfold len. lia.
  - assert (Hat' : occurs_at p r (q - (length l + length p))).
    { apply (occurs_at_unshift (l ++ p)). rewrite <- app_assoc, <- Hs, length_app.
      now replace (length l + length p + (q - (length l + length p)))%nat
        with q by lia. }
    destruct (IH _ _ _ _ H _ Hat') as (o & Ho & Hrange).
    exists o. split; [exact Ho|]. unfold len in *. lia.
Qed.

(** X1. With a non-empty pattern, every occurrence of the pattern in [s]
    shares a character with an offset that [find_occurences] reports: an
    occurrence at [q] has a reported offset [o] with [o <= q < o + len(p)].
    The first reported offset is the leftmost occurrence, [s.find(p)]. *)
Theorem find_occurences_covers (fuel : nat) (s p : str) (occ : list Z) :
  p <> [] ->
  find_occurences fuel s p = Ok occ ->
  (forall q, occurs_at p s q ->
     exists o, In o occ /\ o <= Z.of_nat q < o + len p) /\
  (forall o rest, occ = o :: rest -> o = find s p).
Proof.
  intros Hp H. split.
  - intros q Hat.
    destruct (find_occurences_loop_covers p Hp fuel s 0 [] occ H q Hat)
      as (o & Ho & Hr).
    exists o. split; [exact Ho | lia].
  - intros o rest ->. unfold find_occurences in H.
    destruct fuel as [|fuel]; [discriminate|]. cbn [find_occurences_loop] in H.
    destruct (negb (find s p =? -1)); [|discriminate].
    apply find_occurences_loop_extends in H. destruct H as [t Ht].
    simpl in Ht. injection Ht as -> _. lia.
Qed.

Lemma find_occurences_covers_witness :
  (forall q, occurs_at (lit "aa") (lit "aaaa") q ->
     exists o, In o [0; 2] /\ o <= Z.of_nat q < o + len (lit "aa")) /\
  (forall o rest, [0; 2] = o :: rest -> o = find (lit "aaaa") (lit "aa")).
Proof.
  apply (find_occurences_covers 5 (lit "aaaa") (lit "aa") [0; 2]).
  - discriminate.
  - reflexivity.
Defined.

Lemma well_spaced_total (gap bound : Z) (occ : list Z) :
  forall lo, lo <= bound -> well_spaced gap lo occ ->
    Forall (fun o => o + gap <= bound) occ ->
    lo + Z.of_nat (length occ) * gap <= bound.
Proof.
  induction occ as [|o occ IH]; intros lo Hlo Hsp Hall.
  - simpl. lia.
  - destruct Hsp as [Hle Hsp]. inversion Hall as [|? ? Ho Hall']; subst.
    specialize (IH (o + gap) Ho Hsp Hall').
    cbn [length]. rewrite Nat2Z.inj_succ, Z.mul_succ_l. lia.
Qed.

(** X2. The occurrences that [find_occurences] reports fit side by side in
    the string: their number times [len(p)] is at most [len(s)]. *)
Theorem find_occurences_count (fuel : nat) (s p : str) (occ : list Z) :
  find_occurences fuel s p = Ok occ ->
  Z.of_nat (length occ) * len p <= len s.
Proof.
  intros H. apply find_occurences_sound in H. destruct H as (Hp & Hall & Hsp).
  pose proof (well_spaced_total (len p) (len s) occ 0 ltac:(unfold len; lia) Hsp)
    as Hb.
  rewrite Z.add_0_l in Hb. apply Hb.
  eapply Forall_impl; [|exact Hall]. intros o [H0 Hat].
  pose proof (occurs_at_bound _ _ _ Hat Hp). unfold len. lia.
Qed.

Lemma find_occurences_count_witness :
  Z.of_nat (length [1; 3; 5]) * len (lit "a") <= len (lit "banana").
Proof.
  apply (find_occurences_count 7 (lit "banana") (lit "a") [1; 3; 5]).
  reflexivity.
Defined.

(** ** Rules that do not fit the string *)

Lemma random_choice_nil {A : Type} (w : World) :
  random_choice (@nil A) w = (Raise IndexError, w).
Proof. unfold random_choice. now rewrite nth_error_nil. Qed.

(** X3. Applying a rule whose pattern does not occur in the string raises
    [IndexError], the occurrence list being empty; nothing is drawn, read
    or written before the exception. *)
Theorem apply_not_applicable (fuel : nat) (rule : Rule) (s : str) (w : World) :
  ~ occurs (lhs rule) s ->
  apply (S fuel) rule s w = (Raise IndexError, w).
Proof.
  intros Hno.
  assert (Hf : find s (lhs rule) = -1).
  { destruct (Z.eq_dec (find s (lhs rule)) (-1)) as [E | E]; [exact E|].
    apply find_occurs in E. contradiction. }
  unfold apply, bind, lift, find_occurences. cbn [find_occurences_loop].
  rewrite Hf. change (negb (-1 =? -1)) with false. cbv iota.
  now rewrite random_choice_nil.
Qed.

Lemma apply_not_applicable_witness :
  apply 1 (Rule_init (lit "x") (lit "y")) (lit "banana")
        (mkWorld (lit "in") [] [] (fun n => n) 0)
  = (Raise IndexError, mkWorld (lit "in") [] [] (fun n => n) 0).
Proof.
  apply (apply_not_applicable 0 (Rule_init (lit "x") (lit "y")) (lit "banana")).
  intros (l & r & H).
  assert (Hf : find (lit "banana") (lit "x") <> -1)
    by (apply find_occurs; now exists l, r).
  apply Hf. reflexivity.
Defined.

Lemma applicable_rules_empty_lhs (R : list Rule) (rule : Rule) (s : str) :
  In rule R -> lhs rule = [] -> applicable_rules R s <> [].
Proof.
  intros Hin Hl H.
  assert (Hi : In rule (applicable_rules R s)).
  { apply applicable_rules_In. split; [exact Hin|]. rewrite Hl. now exists [], s. }
  rewrite H in Hi. exact Hi.
Qed.

(** X4. A rule with an empty pattern is applicable to every string, its
    application never returns (no amount of fuel yields a result), and
    [execute] on a rulebase that holds such a rule never ends normally,
    whatever the string, the mode and the draws. *)
Theorem empty_pattern_never_halts (R : list Rule) (rule : Rule) :
  In rule R -> lhs rule = [] ->
  (forall s, In rule (applicable_rules R s)) /\
  (forall fuel s w, apply fuel rule s w = (OutOfFuel, w)) /\
  (forall fuel s v w u, fst (execute fuel R s v w) <> Ok u).
Proof.
  intros Hin Hl. split; [|split].
  - intros s. apply applicable_rules_In. split; [exact Hin|].
    rewrite Hl. now exists [], s.
  - intros fuel s w. unfold apply, bind, lift, find_occurences.
    now rewrite Hl, find_occurences_loop_empty.
  - intros fuel s v w u H. unfold execute in H.
    destruct (execute_loop fuel R s v w) as [res w'] eqn:E.
    unfold bind in H. rewrite E in H.
    destruct res as [s'| |]; try discriminate.
    apply execute_loop_returns_halted in E.
    now apply (applicable_rules_empty_lhs R rule s').
Qed.

Lemma empty_pattern_never_halts_witness :
  (forall s, In (Rule_init [] (lit "x"))
                (applicable_rules [Rule_init [] (lit "x")] s)) /\
  (forall fuel s w, apply fuel (Rule_init [] (lit "x")) s w = (OutOfFuel, w)) /\
  (forall fuel s v w u,
     fst (execute fuel [Rule_init [] (lit "x")] s v w) <> Ok u).
Proof.
  apply (empty_pattern_never_halts [Rule_init [] (lit "x")] (Rule_init [] (lit "x"))).
  - now left.
  - reflexivity.
Defined.

(** ** What a run does to the state *)

Lemma evolves_refl (w : World) : evolves w w.
Proof.
  repeat split; try reflexivity.
  - exists []. now rewrite app_nil_r.
  - now exists [].
Qed.

Lemma evolves_trans (w1 w2 w3 : World) :
  evolves w1 w2 -> evolves w2 w3 -> evolves w1 w3.
Proof.
  intros ([o1 Ho1] & [u1 Hu1] & He1 & Hr1 & Hp1)
         ([o2 Ho2] & [u2 Hu2] & He2 & Hr2 & Hp2).
  repeat split.
  - exists (o1 ++ o2). now rewrite Ho2, Ho1, app_assoc.
  - exists (u1 ++ u2). now rewrite Hu1, Hu2, app_assoc.
  - congruence.
  - congruence.
  - lia.
Qed.

Lemma bind_evolves {A B : Type} (c : M A) (k : A -> M B) :
  (forall w, evolves w (snd (c w))) ->
  (forall a w, evolves w (snd (k a w))) ->
  forall w, evolves w (snd (bind c k w)).
Proof.
  intros Hc Hk w. unfold bind. specialize (Hc w).
  destruct (c w) as [[a|e|] w1]; simpl in *; try exact Hc.
  eapply evolves_trans; [exact Hc | apply Hk].
Qed.

Lemma write_stdout_evolves (text : str) (w : World) :
  evolves w (snd (write_stdout text w)).
Proof.
  repeat split; try reflexivity; simpl.
  - now exists text.
  - now exists [].
Qed.

Lemma split_line_suffix (s : str) : exists used, s = used ++ snd (split_line s).
Proof.
  induction s as [|c s [used IH]]; [now exists []|].
  cbn [split_line]. destruct (Ascii.eqb c newline).
  - now exists [c].
  - destruct (split_line s) as [line rest]. exists (c :: used). simpl in *.
    now rewrite IH at 1.
Qed.

Lemma input_evolves (w : World) : evolves w (snd (input w)).
Proof.
  unfold input. destruct (stdin w) as [|c s] eqn:E; [apply evolves_refl|].
  destruct (split_line_suffix (c :: s)) as [used Hu].
  destruct (split_line (c :: s)) as [line rest]. simpl in *.
  repeat split; try reflexivity; simpl.
  - exists []. now rewrite app_nil_r.
  - exists used. now rewrite E.
Qed.

Lemma random_choice_evolves {A : Type} (seq : list A) (w : World) :
  evolves w (snd (random_choice seq w)).
Proof.
  unfold random_choice.
  destruct (nth_error seq _); [|apply evolves_refl].
  repeat split; try reflexivity; simpl.
  - exists []. now rewrite app_nil_r.
  - now exists [].
  - lia.
Qed.

Lemma apply_evolves (fuel : nat) (rule : Rule) (s : str) (w : World) :
  evolves w (snd (apply fuel rule s w)).
Proof.
  unfold apply. revert w. apply bind_evolves.
  - intros w. apply evolves_refl.
  - intros occ. apply bind_evolves; [apply random_choice_evolves|].
    intros o. destruct (str_eqb (rhs rule) (lit ":::")).
    + apply bind_evolves; [apply input_evolves|]. intros L w. apply evolves_refl.
    + destruct (is_output (rhs rule)).
      * apply bind_evolves; [apply write_stdout_evolves|].
        intros [] w. apply evolves_refl.
      * intros w. apply evolves_refl.
Qed.

Lemma execute_loop_evolves (R : list Rule) (v : bool) (fuel : nat) :
  forall (s : str) (w : World), evolves w (snd (execute_loop fuel R s v w)).
Proof.
  induction fuel as [|fuel IH]; intros s w; [apply evolves_refl|].
  rewrite execute_loop_step.
  destruct (applicable_rules R s) as [|r rs]; [apply evolves_refl|].
  revert w. apply bind_evolves.
  - destruct v; [|intros w; apply evolves_refl].
    apply bind_evolves; [intros w; apply evolves_refl|].
    intros [] w. apply write_stdout_evolves.
  - intros []. apply bind_evolves; [apply random_choice_evolves|].
    intros r'. apply bind_evolves; [apply apply_evolves|].
    intros s'. apply IH.
Qed.

(** X6. Whatever way a run of [execute] ends (normally, with an exception,
    or not within the fuel), it has only appended to standard output, only
    consumed a prefix of standard input, written nothing to the error
    stream, and only advanced the random generator. *)
Theorem execute_evolves (fuel : nat) (R : list Rule) (s : str) (v : bool)
    (w : World) :
  evolves w (snd (execute fuel R s v w)) /\
  evolves w (snd (execute_loop fuel R s v w)).
Proof.
  split; [|apply execute_loop_evolves].
  unfold execute. revert w. apply bind_evolves.
  - apply execute_loop_evolves.
  - intros final w. apply write_stdout_evolves.
Qed.

(** ** A run is a rewriting sequence *)

Lemma occurs_at_decompose (p s : str) (o : nat) :
  occurs_at p s o -> s = firstn o s ++ p ++ skipn (o + length p) s.
Proof.
  unfold occurs_at. intros H.
  rewrite <- (firstn_skipn o s) at 1. f_equal.
  rewrite <- (firstn_skipn (length p) (skipn o s)) at 1.
  rewrite H. f_equal. rewrite skipn_skipn. f_equal. lia.
Qed.

Lemma split_line_no_newline (s : str) : ~ In newline (fst (split_line s)).
Proof.
  induction s as [|c s IH]; [intros []|].
  cbn [split_line]. destruct (Ascii.eqb c newline) eqn:E; [intros []|].
  destruct (split_line s) as [line rest]. simpl in *.
  intros [H | H]; [|now apply IH].
  subst c. now rewrite Ascii.eqb_refl in E.
Qed.

Lemma input_Ok_no_newline (w w' : World) (L : str) :
  input w = (Ok L, w') -> ~ In newline L.
Proof.
  unfold input. destruct (stdin w) as [|c s]; [discriminate|].
  pose proof (split_line_no_newline (c :: s)) as Hn.
  destruct (split_line (c :: s)) as [line rest].
  intros H. injection H as <- _. exact Hn.
Qed.

(** A successful application replaces one occurrence of the pattern. *)
Lemma apply_Ok_rewrite (fuel : nat) (rule : Rule) (s s' : str) (w w' : World) :
  apply fuel rule s w = (Ok s', w') ->
  exists l r mid,
    s = l ++ lhs rule ++ r /\ s' = l ++ mid ++ r /\ replacement rule mid.
Proof.
  intros H. destruct (apply_Ok_inv _ _ _ _ _ _ H) as (occ & o & Hocc & Hch).
  destruct (random_choice_inv _ _ _ _ Hch) as [Ho _].
  destruct (chosen_occurrence _ _ _ _ _ Hocc Ho) as (_ & Hat & Hl & Hr).
  apply occurs_at_decompose in Hat.
  exists (firstn (Z.to_nat o) s), (skipn (Z.to_nat o + length (lhs rule)) s).
  revert H. run_apply Hocc Hch. rewrite Hl, Hr. unfold replacement.
  destruct (str_eqb (rhs rule) (lit ":::")).
  - intros H. apply bind_Ok_inv in H. destruct H as (L & w2 & Hin & H).
    injection H as <- _. exists L. split; [exact Hat|]. split; [reflexivity|].
    eapply input_Ok_no_newline; eassumption.
  - destruct (is_output (rhs rule)).
    + intros H. injection H as <- _. exists []. now split.
    + intros H. injection H as <- _. exists (rhs rule). now split.
Qed.

Lemma execute_loop_rewrites (R : list Rule) (v : bool) (fuel : nat) :
  forall (s s' : str) (w w' : World),
    execute_loop fuel R s v w = (Ok s', w') -> rewrites R s s'.
Proof.
  induction fuel as [|fuel IH]; intros s s' w w' H; [discriminate|].
  rewrite execute_loop_step in H.
  destruct (applicable_rules R s) as [|r rs] eqn:E.
  - injection H as <- _. constructor.
  - apply bind_Ok_inv in H. destruct H as (_ & wa & _ & H).
    apply bind_Ok_inv in H. destruct H as (r' & wb & Hch & H).
    apply bind_Ok_inv in H. destruct H as (s1 & wc & Happ & H).
    apply random_choice_inv in Hch. destruct Hch as [Hin _].
    rewrite <- E in Hin. apply applicable_rules_In in Hin. destruct Hin as [Hin _].
    destruct (apply_Ok_rewrite _ _ _ _ _ _ Happ) as (l & r0 & mid & -> & -> & Hmid).
    eapply rewrites_step; [|exact (IH _ _ _ _ H)].
    now constructor.
Qed.

(** X5. When [execute] ends normally, the string it prints last is
    obtained from the initial string by rewriting steps of the rulebase,
    each replacing one occurrence of a rule's pattern by that rule's
    replacement, and no pattern of the rulebase occurs in it. *)
Theorem execute_sound (fuel : nat) (R : list Rule) (s : str) (v : bool)
    (w w' : World) (u : unit) :
  execute fuel R s v w = (Ok u, w') ->
  exists final w1,
    execute_loop fuel R s v w = (Ok final, w1) /\
    w' = printed (final ++ [newline]) w1 /\
    rewrites R s final /\
    (forall rule, In rule R -> ~ occurs (lhs rule) final).
Proof.
  intros H. unfold execute in H.
  apply bind_Ok_inv in H. destruct H as (final & w1 & Hloop & H).
  unfold write_stdout in H. injection H as _ <-.
  exists final, w1. split; [exact Hloop|]. split; [reflexivity|]. split.
  - eapply execute_loop_rewrites; eassumption.
  - intros rule Hin Hocc. apply execute_loop_returns_halted in Hloop.
    assert (Hi : In rule (applicable_rules R final))
      by (apply applicable_rules_In; now split).
    rewrite Hloop in Hi. exact Hi.
Qed.

Lemma execute_sound_witness :
  exists final w1,
    execute_loop 8 [Rule_init (lit "ab") (lit "ba")] (lit "aabb") false
                 (mkWorld [] [] [] (fun n => n) 0) = (Ok final, w1) /\
    mkWorld [] (lit "bbaa" ++ [newline]) [] (fun n => n) 8
      = printed (final ++ [newline]) w1 /\
    rewrites [Rule_init (lit "ab") (lit "ba")] (lit "aabb") final /\
    (forall rule, In rule [Rule_init (lit "ab") (lit "ba")] ->
       ~ occurs (lhs rule) final).
Proof.
  apply (execute_sound 8 [Rule_init (lit "ab") (lit "ba")] (lit "aabb") false
           (mkWorld [] [] [] (fun n => n) 0)
           (mkWorld [] (lit "bbaa" ++ [newline]) [] (fun n => n) 8) tt).
  reflexivity.
Defined.

(** ** The trace mode changes nothing but the output *)

Lemma bind_same_inputs {A B : Type} (c1 c2 : M A) (k1 k2 : A -> M B) :
  (forall w1 w2, same_inputs w1 w2 ->
     fst (c1 w1) = fst (c2 w2) /\ same_inputs (snd (c1 w1)) (snd (c2 w2))) ->
  (forall a w1 w2, same_inputs w1 w2 ->
     fst (k1 a w1) = fst (k2 a w2) /\ same_inputs (snd (k1 a w1)) (snd (k2 a w2))) ->
  forall w1 w2, same_inputs w1 w2 ->
    fst (bind c1 k1 w1) = fst (bind c2 k2 w2) /\
    same_inputs (snd (bind c1 k1 w1)) (snd (bind c2 k2 w2)).
Proof.
  intros Hc Hk w1 w2 Hw. unfold bind. destruct (Hc w1 w2 Hw) as [Hr Hs].
  destruct (c1 w1) as [r1 w1'], (c2 w2) as [r2 w2']. simpl in Hr, Hs. subst r2.
  destruct r1 as [a|e|]; [now apply Hk | now split | now split].
Qed.

Lemma write_stdout_same_inputs (t1 t2 : str) (w1 w2 : World) :
  same_inputs w1 w2 ->
  fst (write_stdout t1 w1) = fst (write_stdout t2 w2) /\
  same_inputs (snd (write_stdout t1 w1)) (snd (write_stdout t2 w2)).
Proof. intros H. split; [reflexivity | exact H]. Qed.

Lemma input_same_inputs (w1 w2 : World) :
  same_inputs w1 w2 ->
  fst (input w1) = fst (input w2) /\ same_inputs (snd (input w1)) (snd (input w2)).
Proof.
  intros H. pose proof H as (Hi & Hr & Hp). unfold input. rewrite Hi.
  destruct (stdin w2) as [|c s]; [split; [reflexivity | exact H]|].
  destruct (split_line (c :: s)). repeat split; simpl; assumption.
Qed.

Lemma random_choice_same_inputs {A : Type} (seq : list A) (w1 w2 : World) :
  same_inputs w1 w2 ->
  fst (random_choice seq w1) = fst (random_choice seq w2) /\
  same_inputs (snd (random_choice seq w1)) (snd (random_choice seq w2)).
Proof.
  intros H. pose proof H as (Hi & Hr & Hp). unfold random_choice. rewrite Hr, Hp.
  destruct (nth_error seq _); [|split; [reflexivity | exact H]].
  repeat split; simpl; congruence.
Qed.

Lemma ret_same_inputs {A : Type} (a : A) (w1 w2 : World) :
  same_inputs w1 w2 ->
  fst (ret a w1) = fst (ret a w2) /\ same_inputs (snd (ret a w1)) (snd (ret a w2)).
Proof. intros H. now split. Qed.

Lemma apply_same_inputs (fuel : nat) (rule : Rule) (s : str) (w1 w2 : World) :
  same_inputs w1 w2 ->
  fst (apply fuel rule s w1) = fst (apply fuel rule s w2) /\
  same_inputs (snd (apply fuel rule s w1)) (snd (apply fuel rule s w2)).
Proof.
  unfold apply. revert w1 w2. apply bind_same_inputs.
  - intros w1 w2 H. now split.
  - intros occ. apply bind_same_inputs; [apply random_choice_same_inputs|].
    intros o. destruct (str_eqb (rhs rule) (lit ":::")).
    + apply bind_same_inputs; [apply input_same_inputs|].
      intros L. apply ret_same_inputs.
    + destruct (is_output (rhs rule)); [|apply ret_same_inputs].
      apply bind_same_inputs; [apply write_stdout_same_inputs|].
      intros []. apply ret_same_inputs.
Qed.

Lemma execute_loop_same_inputs (R : list Rule) (v1 v2 : bool) (fuel : nat) :
  forall (s : str) (w1 w2 : World),
    same_inputs w1 w2 ->
    fst (execute_loop fuel R s v1 w1) = fst (execute_loop fuel R s v2 w2) /\
    same_inputs (snd (execute_loop fuel R s v1 w1))
                (snd (execute_loop fuel R s v2 w2)).
Proof.
  induction fuel as [|fuel IH]; intros s w1 w2 H; [now split|].
  rewrite !execute_loop_step.
  destruct (applicable_rules R s) as [|r rs]; [now split|].
  revert w1 w2 H. apply bind_same_inputs.
  - intros w1 w2 H. destruct v1, v2; now split.
  - intros []. apply bind_same_inputs; [apply random_choice_same_inputs|].
    intros r'. apply bind_same_inputs; [apply apply_same_inputs|].
    intros s'. apply IH.
Qed.

(** X7. The verbose flag changes neither the outcome of a run nor what it
    reads and draws: started in the same state, a verbose and a quiet run
    of [execute] end the same way (normally, with the same exception, or
    not within the fuel), with the same final string, the same standard
    input left and the same number of draws made.  Only standard output
    differs. *)
Theorem execute_trace_irrelevant (fuel : nat) (R : list Rule) (s : str)
    (w : World) :
  fst (execute_loop fuel R s true w) = fst (execute_loop fuel R s false w) /\
  fst (execute fuel R s true w) = fst (execute fuel R s false w) /\
  same_inputs (snd (execute fuel R s true w)) (snd (execute fuel R s false w)).
Proof.
  assert (Hw : same_inputs w w) by now repeat split.
  split; [apply (execute_loop_same_inputs R true false fuel s w w Hw)|].
  unfold execute. revert w Hw.
  enough (Hgen : forall w1 w2, same_inputs w1 w2 ->
            fst (bind (execute_loop fuel R s true)
                   (fun final => write_stdout (final ++ [newline])) w1)
            = fst (bind (execute_loop fuel R s false)
                     (fun final => write_stdout (final ++ [newline])) w2) /\
            same_inputs
              (snd (bind (execute_loop fuel R s true)
                      (fun final => write_stdout (final ++ [newline])) w1))
              (snd (bind (execute_loop fuel R s false)
                      (fun final => write_stdout (final ++ [newline])) w2)))
    by (intros w Hw; exact (Hgen w w Hw)).
  apply bind_same_inputs.
  - apply execute_loop_same_inputs.
  - intros final. apply write_stdout_same_inputs.
Qed.

(** ** Rulebases without input and output *)


Lemma applicable_chosen (R : list Rule) (s : str) (w : World) :
  applicable_rules R s <> [] ->
  exists r, random_choice (applicable_rules R s) w = (Ok r, drawn w) /\
            In r R /\ find s (lhs r) <> -1.
Proof.
  intros Hne. destruct (random_choice_nonempty _ w Hne) as (r & Hch & Hin).
  exists r. split; [exact Hch|]. apply applicable_rules_In in Hin.
  destruct Hin as [Hin Hocc]. split; [exact Hin | now apply find_occurs].
Qed.




(** ** Rulebases that shorten the string *)

(** A rule that reads no input, applied at a chosen occurrence. *)
Lemma apply_no_input (fuel : nat) (rule : Rule) (s : str) (w w1 : World)
    (occ : list Z) (o : Z) :
  rhs rule <> lit ":::" ->
  find_occurences fuel s (lhs rule) = Ok occ ->
  random_choice occ w = (Ok o, w1) ->
  exists mid w2,
    apply fuel rule s w =
      (Ok (firstn (Z.to_nat o) s ++ mid
           ++ skipn (Z.to_nat o + length (lhs rule)) s), w2) /\
    (if is_output (rhs rule) then mid = [] else mid = rhs rule) /\
    stdin w2 = stdin w /\
    occurs_at (lhs rule) s (Z.to_nat o).
Proof.
  intros Hni Hocc Hch.
  destruct (random_choice_inv _ _ _ _ Hch) as [Ho ->].
  destruct (chosen_occurrence _ _ _ _ _ Hocc Ho) as (_ & Hat & Hl & Hr).
  run_apply Hocc Hch. apply str_eqb_neq in Hni. rewrite Hni, Hl, Hr.
  destruct (is_output (rhs rule)).
  - exists [], (printed (slice_from (rhs rule) 1) (drawn w)). now repeat split.
  - exists (rhs rule), (drawn w). now repeat split.
Qed.

Lemma execute_loop_shortening (R : list Rule) (v : bool) :
  (forall rule, In rule R -> shortens rule) ->
  forall (n : nat) (s : str), (length s <= n)%nat ->
  forall (fuel : nat) (w : World), (n + 1 < fuel)%nat ->
  exists final w',
    execute_loop fuel R s v w = (Ok final, w') /\
    (length final <= length s)%nat /\ stdin w' = stdin w.
Proof.
  intros Hshort. induction n as [|n IH]; intros s Hlen fuel w Hfuel;
    (destruct fuel as [|fuel]; [lia|]); rewrite execute_loop_step;
    destruct (applicable_rules R s) as [|r0 rs] eqn:E.
  1, 3: exists s, w; now repeat split.
  all: destruct (trace_line v (lit "string:" ++ lit " " ++ s ++ [newline]) w)
         as (wa & Hwa & Hin & _);
       rewrite (bind_Ok _ _ _ _ _ Hwa);
       destruct (applicable_chosen R s wa ltac:(rewrite E; discriminate))
         as (r & Hch & HinR & Hfind);
       rewrite E in Hch; rewrite (bind_Ok _ _ _ _ _ Hch);
       destruct (Hshort r HinR) as (Hp & Hni & Hless);
       destruct (find_occurences_spec (lhs r) s Hp) as (occ & Hrun & _);
       assert (Hocc : find_occurences fuel s (lhs r) = Ok occ)
         by (apply Hrun; lia);
       assert (Hne : occ <> [])
         by (now apply (find_occurences_nonempty _ _ _ _ Hocc));
       destruct (random_choice_nonempty occ (drawn wa) Hne) as (o & Hco & _);
       destruct (apply_no_input fuel r s (drawn wa) (drawn (drawn wa)) occ o
                   Hni Hocc Hco) as (mid & w2 & Happ & Hmid & Hin2 & Hat);
       rewrite (bind_Ok _ _ _ _ _ Happ);
       pose proof (f_equal (@length ascii) (occurs_at_decompose _ _ _ Hat)) as Hs;
       rewrite !length_app in Hs;
       assert (Hpos : (0 < length (lhs r))%nat)
         by (destruct (lhs r); [congruence | simpl; lia]);
       assert (Hshrink :
                 (length (firstn (Z.to_nat o) s ++ mid
                          ++ skipn (Z.to_nat o + length (lhs r)) s)
                  < length s)%nat)
         by (rewrite !length_app;
             destruct (is_output (rhs r));
             [subst mid; simpl; lia
             | subst mid; specialize (Hless eq_refl); lia]).
  - exfalso. lia.
  - destruct (IH (firstn (Z.to_nat o) s ++ mid
                  ++ skipn (Z.to_nat o + length (lhs r)) s)
                 ltac:(lia) fuel w2 ltac:(lia))
      as (final & w' & Hloop & Hl & Hi).
    exists final, w'. split; [exact Hloop|]. split; [lia|].
    rewrite Hi, Hin2. exact Hin.
Qed.

(** X8. When every rule has a non-empty pattern, reads no input and puts
    in place of its pattern a text shorter than the pattern (an output rule
    puts nothing), [execute] ends for every sequence of draws, within as
    many rewriting steps as the string has characters; the final string is
    no longer than the initial one and standard input is left as it was. *)
Theorem execute_shortening_terminates (R : list Rule) (s : str) (v : bool)
    (fuel : nat) (w : World) :
  (forall rule, In rule R -> shortens rule) ->
  (length s + 1 < fuel)%nat ->
  exists final w',
    execute fuel R s v w = (Ok tt, printed (final ++ [newline]) w') /\
    execute_loop fuel R s v w = (Ok final, w') /\
    (length final <= length s)%nat /\ stdin w' = stdin w.
Proof.
  intros Hshort Hfuel.
  destruct (execute_loop_shortening R v Hshort (length s) s (le_n _) fuel w Hfuel)
    as (final & w' & Hloop & Hl & Hi).
  exists final, w'. split; [|now repeat split].
  unfold execute. now rewrite (bind_Ok _ _ _ _ _ Hloop).
Qed.

Lemma execute_shortening_terminates_witness :
  exists final w',
    execute 6 [Rule_init (lit "ab") (lit "c"); Rule_init (lit "c") (lit "~x")]
            (lit "abab") false (mkWorld (lit "in") [] [] (fun n => n) 0)
      = (Ok tt, printed (final ++ [newline]) w') /\
    execute_loop 6 [Rule_init (lit "ab") (lit "c"); Rule_init (lit "c") (lit "~x")]
                 (lit "abab") false (mkWorld (lit "in") [] [] (fun n => n) 0)
      = (Ok final, w') /\
    (length final <= length (lit "abab"))%nat /\
    stdin w' = stdin (mkWorld (lit "in") [] [] (fun n => n) 0).
Proof.
  apply (execute_shortening_terminates
           [Rule_init (lit "ab") (lit "c"); Rule_init (lit "c") (lit "~x")]
           (lit "abab") false 6 (mkWorld (lit "in") [] [] (fun n => n) 0)).
  - intros rule [<- | [<- | []]]; unfold shortens; simpl;
      (split; [discriminate | split; [discriminate | intros; try discriminate; lia]]).
  - simpl. lia.
Defined.

(** * Further properties of the loader *)

(** ** Lines and the separator *)

Lemma rstrip_snoc_space (s : str) (c : ascii) :
  isspace_char c = true -> rstrip (s ++ [c]) = rstrip s.
Proof.
  intros Hc. induction s as [|d s IH]; simpl.
  - now rewrite Hc.
  - now rewrite IH.
Qed.

Lemma rstrip_keeps (a b : str) :
  b <> [] -> rstrip b = b -> rstrip (a ++ b) = a ++ b.
Proof.
  intros Hne Hb. induction a as [|c a IH]; [exact Hb|].
  cbn [app rstrip]. rewrite IH.
  destruct (a ++ b) eqn:E; [|reflexivity].
  apply app_eq_nil in E. destruct E as [_ E]. contradiction.
Qed.

Lemma rstrip_rule_line (rule : Rule) :
  rstrip (rhs rule) = rhs rule ->
  rstrip (rule_line rule) = lhs rule ++ lit "::=" ++ rhs rule.
Proof.
  intros Hr. unfold rule_line.
  replace (lhs rule ++ lit "::=" ++ rhs rule ++ [newline])
    with ((lhs rule ++ lit "::=" ++ rhs rule) ++ [newline])
    by now rewrite <- !app_assoc.
  rewrite rstrip_snoc_space by reflexivity.
  destruct (rhs rule) as [|c r] eqn:E.
  - rewrite app_nil_r. apply rstrip_keeps; [discriminate | reflexivity].
  - rewrite app_assoc. apply rstrip_keeps; [discriminate | exact Hr].
Qed.

Lemma dot_star_id (s : str) : ~ In newline s -> dot_star s = s.
Proof.
  induction s as [|c s IH]; intros Hn; [reflexivity|].
  cbn [dot_star]. destruct (Ascii.eqb c newline) eqn:E.
  - apply Ascii.eqb_eq in E. subst c. destruct Hn. now left.
  - rewrite IH; [reflexivity|]. intros H. apply Hn. now right.
Qed.

Lemma dot_star_no_newline (s : str) : ~ In newline (dot_star s).
Proof.
  induction s as [|c s IH]; [intros []|].
  cbn [dot_star]. destruct (Ascii.eqb c newline) eqn:E; [intros []|].
  intros [H | H]; [|now apply IH].
  subst c. now rewrite Ascii.eqb_refl in E.
Qed.

Lemma split_last_none (sep : str) :
  forall t, split_last t sep = None <-> ~ occurs sep t.
Proof.
  induction t as [|c t IH]; cbn [split_last].
  - destruct (startswith [] sep) eqn:E.
    + apply startswith_nil in E. subst sep. split; [discriminate|].
      intros H. destruct H. now exists [], [].
    + split; [|reflexivity]. intros _ (l & r & H).
      destruct l; [|discriminate H]. destruct sep; [discriminate E | discriminate H].
  - destruct (split_last t sep) as [[l r]|] eqn:El.
    + split; [discriminate|]. intros H. exfalso.
      assert (Hocc : occurs sep t).
      { destruct (occurs_dec sep t) as [Hy | Hn]; [exact Hy|].
        apply IH in Hn. discriminate. }
      destruct Hocc as (l' & r' & ->). apply H. now exists (c :: l'), r'.
    + destruct (startswith (c :: t) sep) eqn:E.
      * split; [discriminate|]. intros H. destruct H.
        apply startswith_spec in E. destruct E as [r Hr]. now exists [], r.
      * split; [|reflexivity]. intros _ (l & r & H).
        destruct l as [|d l].
        -- assert (startswith (c :: t) sep = true)
             by (apply startswith_spec; now exists r). congruence.
        -- injection H as _ H. apply (proj1 IH eq_refl). now exists l, r.
Qed.

(** What [split_last] returns: the text around the last separator. *)
Lemma split_last_some (sep : str) (Hsep : sep <> []) :
  forall t l r, split_last t sep = Some (l, r) ->
    t = l ++ sep ++ r /\ ~ occurs sep r.
Proof.
  induction t as [|c t IH]; intros l r H; cbn [split_last] in H.
  - destruct sep; [congruence | discriminate].
  - destruct (split_last t sep) as [[l' r']|] eqn:El.
    + injection H as <- <-. destruct (IH _ _ eq_refl) as [-> Hn]. now split.
    + destruct (startswith (c :: t) sep) eqn:E; [|discriminate].
      injection H as <- <-. apply startswith_spec in E. destruct E as [r0 Hr].
      rewrite Hr, skipn_length_app. split; [reflexivity|].
      intros (l1 & r1 & ->). apply (proj1 (split_last_none sep t) El).
      destruct sep as [|d sep']; [congruence|]. injection Hr as _ ->.
      exists (sep' ++ l1), r1. now rewrite <- app_assoc.
Qed.

Lemma split_last_found (sep l r : str) :
  (forall d sep', sep = d :: sep' -> ~ occurs sep (sep' ++ r)) ->
  sep <> [] ->
  split_last (l ++ sep ++ r) sep = Some (l, r).
Proof.
  intros Hlast Hsep. induction l as [|c l IH].
  - destruct sep as [|d sep']; [congruence|].
    cbn [app split_last].
    rewrite (proj2 (split_last_none (d :: sep') (sep' ++ r)) (Hlast d sep' eq_refl)).
    assert (E : startswith (d :: sep' ++ r) (d :: sep') = true)
      by (apply startswith_spec; now exists r).
    rewrite E. f_equal. f_equal.
    change (d :: sep' ++ r) with ((d :: sep') ++ r). apply skipn_length_app.
  - cbn [app split_last]. now rewrite IH.
Qed.

Lemma separator_not_overlapping (r : str) :
  ~ occurs (lit "::=") r -> ~ occurs (lit "::=") (lit ":=" ++ r).
Proof.
  intros Hn (l & r' & H). destruct l as [|c1 [|c2 l]].
  - discriminate H.
  - simpl in H. injection H as _ H. discriminate H.
  - simpl in H. injection H as _ _ H. apply Hn. now exists l, r'.
Qed.

Lemma re_match_rule_line (l r : str) :
  ~ In newline l -> ~ In newline r -> ~ occurs (lit "::=") r ->
  re_match_rule (l ++ lit "::=" ++ r) = Some (l, r).
Proof.
  intros Hl Hr Hn. unfold re_match_rule.
  rewrite dot_star_id.
  - apply split_last_found; [|discriminate].
    intros d sep' E. injection E as <- <-. now apply separator_not_overlapping.
  - intros H. apply in_app_or in H. destruct H as [H | H]; [now apply Hl|].
    apply in_app_or in H. destruct H as [H | H]; [|now apply Hr].
    simpl in H. destruct H as [H | [H | [H | []]]]; discriminate H.
Qed.

Lemma not_blank (line : str) :
  In ":"%char line -> str_eqb line (lit "") || isspace line = false.
Proof.
  intros Hin. destruct line as [|c line]; [destruct Hin|].
  apply orb_false_iff. split; [reflexivity|].
  unfold isspace. destruct (forallb isspace_char (c :: line)) eqn:E; [|reflexivity].
  rewrite forallb_forall in E. specialize (E _ Hin). discriminate E.
Qed.

(** ** Reading back a written rulebase *)

Lemma read_rule_line (rule : Rule) (file : list str) (rulebase : list Rule)
    (lineno : Z) :
  writable rule ->
  read_rulebase_loop (rule_line rule :: file) rulebase lineno =
  read_rulebase_loop file (rulebase ++ [rule]) (lineno + 1).
Proof.
  intros (Hl & Hnl & Hnr & Hsep & Hrs). cbn [read_rulebase_loop].
  rewrite (rstrip_rule_line rule Hrs).
  rewrite not_blank
    by (apply in_or_app; right; apply in_or_app; left; now left).
  rewrite (re_match_rule_line _ _ Hnl Hnr Hsep).
  apply str_eqb_neq in Hl. change (lit "") with (@nil ascii). rewrite Hl.
  now destruct rule.
Qed.

Lemma read_rule_lines (rules : list Rule) :
  Forall writable rules ->
  forall (file : list str) (rulebase : list Rule) (lineno : Z),
    read_rulebase_loop (map rule_line rules ++ file) rulebase lineno =
    read_rulebase_loop file (rulebase ++ rules)
      (lineno + Z.of_nat (length rules)).
Proof.
  induction 1 as [|rule rules Hw _ IH]; intros file rulebase lineno.
  - simpl. now rewrite app_nil_r, Z.add_0_r.
  - cbn [map app]. rewrite (read_rule_line rule _ _ _ Hw), IH, <- app_assoc.
    f_equal. cbn [length]. lia.
Qed.

Lemma read_rulebase_loop_written (rules : list Rule) (term x : str)
    (rest : list str) (rulebase : list Rule) (lineno : Z) (w : World) :
  Forall writable rules ->
  re_match_rule (rstrip term) = Some ([], x) ->
  read_rulebase_loop (map rule_line rules ++ term :: rest) rulebase lineno w
  = (Ok (rulebase ++ rules, rest), w).
Proof.
  intros Hw Hterm. rewrite (read_rule_lines rules Hw).
  cbn [read_rulebase_loop].
  now rewrite (empty_lhs_line_not_blank _ _ Hterm), Hterm.
Qed.

(** X10. Writing rules one per line as [lhs ::= rhs], followed by a line
    with an empty left-hand side, and reading the lines back gives the same
    rules in the same order and leaves the lines after the terminator
    unread; nothing is written.  It holds for rules with a non-empty
    left-hand side, no newline in either side, no separator in the
    right-hand side and no trailing whitespace in the right-hand side. *)
Theorem read_rulebase_round_trip (rules : list Rule) (term x : str)
    (rest : list str) (w : World) :
  Forall writable rules ->
  re_match_rule (rstrip term) = Some ([], x) ->
  read_rulebase (map rule_line rules ++ term :: rest) w = (Ok (rules, rest), w).
Proof.
  intros Hw Hterm. unfold read_rulebase.
  exact (read_rulebase_loop_written rules term x rest [] 1 w Hw Hterm).
Qed.

Lemma read_rulebase_round_trip_witness :
  read_rulebase
    (map rule_line [Rule_init (lit "a b") (lit "~hi"); Rule_init (lit "x") (lit "")]
     ++ (lit "::=" ++ [newline]) :: [lit "banana"])
    (mkWorld [] [] [] (fun n => n) 0)
  = (Ok ([Rule_init (lit "a b") (lit "~hi"); Rule_init (lit "x") (lit "")],
         [lit "banana"]),
     mkWorld [] [] [] (fun n => n) 0).
Proof.
  apply (read_rulebase_round_trip
           [Rule_init (lit "a b") (lit "~hi"); Rule_init (lit "x") (lit "")]
           (lit "::=" ++ [newline]) [] [lit "banana"]
           (mkWorld [] [] [] (fun n => n) 0)).
  - apply Forall_cons; [|apply Forall_cons; [|apply Forall_nil]];
      (split; [discriminate|]);
      (split; [intros H; simpl in H;
               repeat (destruct H as [H | H]; [discriminate H|]); exact H|]);
      (split; [intros H; simpl in H;
               repeat (destruct H as [H | H]; [discriminate H|]); exact H|]);
      (split; [apply (proj1 (split_last_none _ _)) | ]); reflexivity.
  - reflexivity.
Defined.

(** ** What loaded rules look like *)

Lemma read_rulebase_loop_shape (file : list str) :
  forall (rulebase rb : list Rule) (rest : list str) (lineno : Z) (w w' : World),
    Forall (fun r => ~ In newline (lhs r) /\ ~ In newline (rhs r) /\
                     ~ occurs (lit "::=") (rhs r)) rulebase ->
    read_rulebase_loop file rulebase lineno w = (Ok (rb, rest), w') ->
    Forall (fun r => ~ In newline (lhs r) /\ ~ In newline (rhs r) /\
                     ~ occurs (lit "::=") (rhs r)) rb /\
    exists used, file = used ++ rest.
Proof.
  induction file as [|line file IH]; intros rulebase rb rest lineno w w' Hall H.
  - simpl in H. now apply error_not_Ok in H.
  - cbn [read_rulebase_loop] in H.
    destruct (str_eqb (rstrip line) (lit "") || isspace (rstrip line)).
    + destruct (IH _ _ _ _ _ _ Hall H) as [Hrb [used ->]].
      split; [exact Hrb | now exists (line :: used)].
    + destruct (re_match_rule (rstrip line)) as [[l r]|] eqn:Em;
        [|now apply error_not_Ok in H].
      destruct (str_eqb l (lit "")).
      * injection H as <- <- _. split; [exact Hall | now exists [line]].
      * unfold re_match_rule in Em.
        destruct (split_last_some (lit "::=") ltac:(discriminate) _ _ _ Em)
          as [Hd Hn].
        pose proof (dot_star_no_newline (rstrip line)) as Hnl. rewrite Hd in Hnl.
        assert (Hall' : Forall (fun r => ~ In newline (lhs r) /\
                                         ~ In newline (rhs r) /\
                                         ~ occurs (lit "::=") (rhs r))
                               (rulebase ++ [Rule_init l r])).
        { apply Forall_app. split; [exact Hall|]. constructor; [|constructor].
          simpl. repeat split; [| |exact Hn]; intros Hi; apply Hnl;
            apply in_or_app; [now left | right; apply in_or_app; now right]. }
        destruct (IH _ _ _ _ _ _ Hall' H) as [Hrb [used ->]].
        split; [exact Hrb | now exists (line :: used)].
Qed.

(** X11. In a rulebase that [read_rulebase] returns, no side of a rule
    holds a newline and no right-hand side holds the separator [::=] (a
    line is cut at its last separator); the lines it leaves unread are a
    suffix of the file. *)
Theorem read_rulebase_shape (file : list str) (w w' : World)
    (rb : list Rule) (rest : list str) :
  read_rulebase file w = (Ok (rb, rest), w') ->
  Forall (fun r => ~ In newline (lhs r) /\ ~ In newline (rhs r) /\
                   ~ occurs (lit "::=") (rhs r)) rb /\
  exists used, file = used ++ rest.
Proof.
  intros H. exact (read_rulebase_loop_shape file [] rb rest 1 w w' (Forall_nil _) H).
Qed.

Lemma read_rulebase_shape_witness :
  Forall (fun r => ~ In newline (lhs r) /\ ~ In newline (rhs r) /\
                   ~ occurs (lit "::=") (rhs r))
         [Rule_init (lit "a") (lit "b"); Rule_init (lit "c::=d") (lit "e")] /\
  exists used,
    [lit "a::=b"; lit "  "; lit "c::=d::=e "; lit "::=x"; lit "banana"]
    = used ++ [lit "banana"].
Proof.
  apply (read_rulebase_shape
           [lit "a::=b"; lit "  "; lit "c::=d::=e "; lit "::=x"; lit "banana"]
           (mkWorld [] [] [] (fun n => n) 0) (mkWorld [] [] [] (fun n => n) 0)
           [Rule_init (lit "a") (lit "b"); Rule_init (lit "c::=d") (lit "e")]
           [lit "banana"]).
  reflexivity.
Defined.

(** ** Errors of the loader *)

Lemma error_at_line {A : Type} (msg : str) (lineno : Z) (w : World) :
  lineno <> -1 ->
  @error A msg lineno w =
  (Raise (SystemExit 1),
   mkWorld (stdin w) (stdout w)
     (stderr w ++ lit "error, line " ++ str_of_int lineno ++ lit ": " ++ msg
      ++ lit "!" ++ [newline])
     (rand w) (rand_pos w)).
Proof.
  intros H. apply Z.eqb_neq in H. unfold error. rewrite H. reflexivity.
Qed.

Lemma str_eqb_eq_nil (a : str) : str_eqb a (lit "") = true -> a = [].
Proof.
  unfold str_eqb. destruct (list_eq_dec ascii_dec a (lit "")); [|discriminate].
  intros _. assumption.
Qed.

Lemma rstrip_nonspace (s : str) :
  rstrip s = [] \/ exists c, In c (rstrip s) /\ isspace_char c = false.
Proof.
  induction s as [|c s IH]; [now left|]. cbn [rstrip].
  destruct (rstrip s) as [|d r] eqn:E.
  - destruct (isspace_char c) eqn:Ec; [now left|].
    right. exists c. split; [now left | exact Ec].
  - right. destruct IH as [IH | (c' & Hin & Hc')]; [discriminate|].
    exists c'. split; [now right | exact Hc'].
Qed.

(** After [rstrip] a line is blank only if it is empty. *)
Lemma blank_test (line : str) :
  str_eqb (rstrip line) (lit "") || isspace (rstrip line) = true <->
  rstrip line = [].
Proof.
  split.
  - intros H. destruct (rstrip_nonspace line) as [E | (c & Hin & Hc)]; [exact E|].
    apply orb_true_iff in H. destruct H as [H | H].
    + now apply str_eqb_eq_nil in H.
    + unfold isspace in H. destruct (rstrip line) as [|d r]; [reflexivity|].
      rewrite forallb_forall in H. specialize (H _ Hin). congruence.
  - intros ->. reflexivity.
Qed.

Lemma dot_star_prefix (s : str) : exists rest, s = dot_star s ++ rest.
Proof.
  induction s as [|c s [rest IH]]; [now exists []|].
  cbn [dot_star]. destruct (Ascii.eqb c newline).
  - now exists (c :: s).
  - exists rest. simpl. now rewrite <- IH.
Qed.

Lemma re_match_rule_none (line : str) :
  ~ occurs (lit "::=") line -> re_match_rule line = None.
Proof.
  intros Hn. unfold re_match_rule. apply split_last_none.
  intros (l & r & H). apply Hn.
  destruct (dot_star_prefix line) as [rest Hrest].
  exists l, (r ++ rest). rewrite Hrest at 1. rewrite H.
  now rewrite <- !app_assoc.
Qed.

Lemma read_passable (line : str) (rulebase : list Rule) :
  passable line ->
  exists rulebase',
    forall (file : list str) (lineno : Z),
      read_rulebase_loop (line :: file) rulebase lineno =
      read_rulebase_loop file rulebase' (lineno + 1).
Proof.
  intros Hp.
  destruct (str_eqb (rstrip line) (lit "") || isspace (rstrip line)) eqn:Eb.
  - exists rulebase. intros file lineno. cbn [read_rulebase_loop]. now rewrite Eb.
  - destruct Hp as [Hp | (l & r & Hm & Hl)]; [congruence|].
    exists (rulebase ++ [Rule_init l r]). intros file lineno.
    cbn [read_rulebase_loop]. rewrite Eb, Hm.
    apply str_eqb_neq in Hl. change (lit "") with (@nil ascii). now rewrite Hl.
Qed.

Lemma read_passable_lines (pre : list str) :
  Forall passable pre ->
  forall rulebase, exists rulebase',
    forall (file : list str) (lineno : Z),
      read_rulebase_loop (pre ++ file) rulebase lineno =
      read_rulebase_loop file rulebase' (lineno + Z.of_nat (length pre)).
Proof.
  induction 1 as [|line pre Hp _ IH]; intros rulebase.
  - exists rulebase. intros file lineno. simpl. now rewrite Z.add_0_r.
  - destruct (read_passable line rulebase Hp) as [rb1 H1].
    destruct (IH rb1) as [rb2 H2]. exists rb2. intros file lineno.
    cbn [app]. rewrite H1, H2. f_equal. cbn [length]. lia.
Qed.

(** X12. A line that is not blank and holds no separator [::=], met
    before the terminator, makes [read_rulebase] exit with status 1 after
    one message on the error stream that names the number of that line,
    counted from 1 over all lines, blank ones included, and quotes the line
    without its trailing whitespace. *)
Theorem read_rulebase_malformed (pre post : list str) (bad : str) (w : World) :
  Forall passable pre ->
  rstrip bad <> [] ->
  ~ occurs (lit "::=") (rstrip bad) ->
  read_rulebase (pre ++ bad :: post) w =
  (Raise (SystemExit 1),
   mkWorld (stdin w) (stdout w)
     (stderr w ++ lit "error, line " ++ str_of_int (Z.of_nat (length pre) + 1)
      ++ lit ": " ++ (lit "Expected " ++ [dquote] ++ lit "<lhs> ::= <rhs>"
                      ++ [dquote] ++ lit ", got " ++ rstrip bad)
      ++ lit "!" ++ [newline])
     (rand w) (rand_pos w)).
Proof.
  intros Hpre Hne Hsep. unfold read_rulebase.
  destruct (read_passable_lines pre Hpre []) as [rb H]. rewrite H.
  cbn [read_rulebase_loop].
  destruct (str_eqb (rstrip bad) (lit "") || isspace (rstrip bad)) eqn:Eb.
  - apply blank_test in Eb. contradiction.
  - rewrite (re_match_rule_none _ Hsep).
    replace (1 + Z.of_nat (length pre)) with (Z.of_nat (length pre) + 1) by lia.
    rewrite error_at_line by lia. reflexivity.
Qed.

Lemma read_rulebase_malformed_witness :
  read_rulebase [lit "a::=b"; lit "  "; lit "c:=d"; lit "::="]
                (mkWorld [] [] [] (fun n => n) 0)
  = (Raise (SystemExit 1),
     mkWorld [] []
       ([] ++ lit "error, line " ++ str_of_int (Z.of_nat 2 + 1)
        ++ lit ": " ++ (lit "Expected " ++ [dquote] ++ lit "<lhs> ::= <rhs>"
                        ++ [dquote] ++ lit ", got " ++ lit "c:=d")
        ++ lit "!" ++ [newline])
       (fun n => n) 0).
Proof.
  apply (read_rulebase_malformed [lit "a::=b"; lit "  "] [lit "::="] (lit "c:=d")
           (mkWorld [] [] [] (fun n => n) 0)).
  - apply Forall_cons; [|apply Forall_cons; [|apply Forall_nil]].
    + right. exists (lit "a"), (lit "b"). split; [reflexivity | discriminate].
    + left. reflexivity.
  - discriminate.
  - apply (proj1 (split_last_none _ _)). reflexivity.
Defined.

(** X13. A file whose every line is blank or a rule with a non-empty
    left-hand side has no terminator: [read_rulebase] exits with status 1
    after a message that expects the separator at the line after the last
    one. *)
Theorem read_rulebase_unterminated (file : list str) (w : World) :
  Forall passable file ->
  read_rulebase file w =
  (Raise (SystemExit 1),
   mkWorld (stdin w) (stdout w)
     (stderr w ++ lit "error, line " ++ str_of_int (Z.of_nat (length file) + 1)
      ++ lit ": " ++ (lit "Expected " ++ [dquote] ++ lit "::=" ++ [dquote]
                      ++ lit ", got " ++ [dquote] ++ lit "EOF" ++ [dquote])
      ++ lit "!" ++ [newline])
     (rand w) (rand_pos w)).
Proof.
  intros Hall. unfold read_rulebase.
  destruct (read_passable_lines file Hall []) as [rb H].
  rewrite <- (app_nil_r file) at 1. rewrite H. cbn [read_rulebase_loop].
  replace (1 + Z.of_nat (length file)) with (Z.of_nat (length file) + 1) by lia.
  rewrite error_at_line by lia. reflexivity.
Qed.

Lemma read_rulebase_unterminated_witness :
  read_rulebase [lit "a::=b"; lit ""] (mkWorld [] [] [] (fun n => n) 0)
  = (Raise (SystemExit 1),
     mkWorld [] []
       ([] ++ lit "error, line " ++ str_of_int (Z.of_nat 2 + 1)
        ++ lit ": " ++ (lit "Expected " ++ [dquote] ++ lit "::=" ++ [dquote]
                        ++ lit ", got " ++ [dquote] ++ lit "EOF" ++ [dquote])
        ++ lit "!" ++ [newline])
       (fun n => n) 0).
Proof.
  apply (read_rulebase_unterminated [lit "a::=b"; lit ""]
           (mkWorld [] [] [] (fun n => n) 0)).
  apply Forall_cons; [|apply Forall_cons; [|apply Forall_nil]].
  - right. exists (lit "a"), (lit "b"). split; [reflexivity | discriminate].
  - left. reflexivity.
Defined.

(** ** Reading a program *)



Lemma fold_left_concat (lines : list str) :
  forall acc,
    fold_left (fun acc line => acc ++ rstrip line) lines acc
    = acc ++ concat (map rstrip lines).
Proof.
  induction lines as [|line lines IH]; intros acc; simpl.
  - now rewrite app_nil_r.
  - now rewrite IH, app_assoc.
Qed.

Lemma read_program_opened (files : str -> option (list str)) (filename : str)
    (file rest : list str) (rb : list Rule) (w w' : World) :
  files filename = Some file ->
  read_rulebase file w = (Ok (rb, rest), w') ->
  read_program files filename w = (Ok (rb, concat (map rstrip rest)), w').
Proof.
  intros Hf Hr. unfold read_program. rewrite Hf.
  rewrite (bind_Ok _ _ w w file eq_refl).
  rewrite (bind_Ok _ _ _ _ _ Hr). now rewrite fold_left_concat.
Qed.



(** X15. A program file made of the lines of writable rules, a terminator
    line and the lines of the initial string is read back by
    [read_program] as those rules and the initial-string lines joined
    without their trailing whitespace. *)
Theorem read_program_round_trip (files : str -> option (list str))
    (filename term x : str) (rules : list Rule) (init : list str) (w : World) :
  Forall writable rules ->
  re_match_rule (rstrip term) = Some ([], x) ->
  files filename = Some (map rule_line rules ++ term :: init) ->
  read_program files filename w = (Ok (rules, concat (map rstrip init)), w).
Proof.
  intros Hw Hterm Hf.
  apply (read_program_opened files filename _ init rules w w Hf).
  unfold read_rulebase.
  exact (read_rulebase_loop_written rules term x init [] 1 w Hw Hterm).
Qed.

Lemma read_program_round_trip_witness :
  read_program
    (fun _ => Some (map rule_line [Rule_init (lit "a") (lit "")]
                    ++ (lit "::=" ++ [newline])
                    :: [lit "ban" ++ [newline]; lit "ana" ++ [newline]]))
    (lit "prog.t") (mkWorld [] [] [] (fun n => n) 0)
  = (Ok ([Rule_init (lit "a") (lit "")],
         concat (map rstrip [lit "ban" ++ [newline]; lit "ana" ++ [newline]])),
     mkWorld [] [] [] (fun n => n) 0).
Proof.
  apply (read_program_round_trip _ (lit "prog.t") (lit "::=" ++ [newline]) []
           [Rule_init (lit "a") (lit "")]).
  - apply Forall_cons; [|apply Forall_nil].
    split; [discriminate|].
    split; [intros [H | []]; discriminate H|].
    split; [intros []|].
    split; [apply (proj1 (split_last_none _ _)) | ]; reflexivity.
  - reflexivity.
  - reflexivity.
Defined.

(** * Properties of the main program *)

(** X16. With an argument vector of any length but 2 or 3, or with three
    arguments of which the flag is neither [-v] nor [-verbose], the main
    program prints the usage line and exits with status 0; it opens no
    file, reads nothing and draws nothing. *)
Theorem main_usage (fuel : nat) (files : str -> option (list str))
    (argv : list str) (w : World) :
  ((length argv <> 2)%nat /\ (length argv <> 3)%nat) \/
  (exists prog flag file,
     argv = [prog; flag; file] /\ flag <> lit "-v" /\ flag <> lit "-verbose") ->
  main fuel files argv w =
  (Raise (SystemExit 0),
   printed (lit "usage: python3 thue.py [-v] <path-to-file>" ++ [newline]) w).
Proof.
  intros [[H2 H3] | (prog & flag & file & -> & Hv & Hverbose)].
  - destruct argv as [|a0 [|a1 [|a2 [|a3 argv]]]]; simpl in H2, H3;
      try reflexivity; congruence.
  - unfold main. apply str_eqb_neq in Hv, Hverbose.
    unfold bind at 1. unfold bind at 1. now rewrite Hv, Hverbose.
Qed.

Lemma main_usage_witness :
  main 5 (fun _ => None) [lit "thue.py"; lit "--verbose"; lit "prog.t"]
       (mkWorld (lit "in") [] [] (fun n => n) 0)
  = (Raise (SystemExit 0),
     printed (lit "usage: python3 thue.py [-v] <path-to-file>" ++ [newline])
             (mkWorld (lit "in") [] [] (fun n => n) 0)).
Proof.
  apply (main_usage 5 (fun _ => None)
           [lit "thue.py"; lit "--verbose"; lit "prog.t"]).
  right. exists (lit "thue.py"), (lit "--verbose"), (lit "prog.t").
  split; [reflexivity|]. split; discriminate.
Defined.

(** X17. With two arguments the main program reads the program from the
    file named by the last one and runs [execute] on it in quiet mode;
    with the flag [-v] or [-verbose] in front of the file name it runs it
    in verbose mode.  When reading the program fails, the main program
    ends with that failure and no rewriting takes place. *)
Theorem main_runs_program (fuel : nat) (files : str -> option (list str))
    (prog filename : str) (w : World) :
  (forall rules init w',
     read_program files filename w = (Ok (rules, init), w') ->
     main fuel files [prog; filename] w = execute fuel rules init false w' /\
     main fuel files [prog; lit "-v"; filename] w
       = execute fuel rules init true w' /\
     main fuel files [prog; lit "-verbose"; filename] w
       = execute fuel rules init true w') /\
  (forall e w',
     read_program files filename w = (Raise e, w') ->
     main fuel files [prog; filename] w = (Raise e, w') /\
     main fuel files [prog; lit "-v"; filename] w = (Raise e, w') /\
     main fuel files [prog; lit "-verbose"; filename] w = (Raise e, w')).
Proof.
  split.
  - intros rules init w' H. unfold main.
    repeat split; unfold bind; cbn [ret str_eqb]; simpl; now rewrite H.
  - intros e w' H. unfold main.
    repeat split; unfold bind; simpl; now rewrite H.
Qed.

Lemma main_runs_program_witness :
  main 8 (fun _ => Some [lit "a::="; lit "::="; lit "banana"])
       [lit "thue.py"; lit "prog.t"] (mkWorld [] [] [] (fun n => n) 0)
  = execute 8 [Rule_init (lit "a") (lit "")] (lit "banana") false
            (mkWorld [] [] [] (fun n => n) 0) /\
  main 8 (fun _ => None) [lit "thue.py"; lit "-v"; lit "prog.t"]
       (mkWorld [] [] [] (fun n => n) 0)
  = (Raise (SystemExit 1),
     mkWorld [] []
       (lit "error: could not open " ++ [dquote] ++ lit "prog.t" ++ [dquote]
        ++ lit "!" ++ [newline])
       (fun n => n) 0).
Proof.
  split.
  - apply (proj1 (main_runs_program 8
                    (fun _ => Some [lit "a::="; lit "::="; lit "banana"])
                    (lit "thue.py") (lit "prog.t")
                    (mkWorld [] [] [] (fun n => n) 0))
             [Rule_init (lit "a") (lit "")] (lit "banana")
             (mkWorld [] [] [] (fun n => n) 0)).
    reflexivity.
  - apply (proj2 (main_runs_program 8 (fun _ => None)
                    (lit "thue.py") (lit "prog.t")
                    (mkWorld [] [] [] (fun n => n) 0))).
    reflexivity.
Defined.
